(** * react-detour: a shallow embedding of [src/detour.ts]

    The development follows the source file top to bottom: the values a
    loader thunk can produce, [toRouteHandler], [PathProvider] and
    [providePath], and then the [RouteOutlet] class that [withRoutes]
    builds ([computeOutlet], its two promise reactions and [render]).

    Two things the source imports are not part of it and are taken as
    given: [path-to-regexp] (a section variable [pathToRegexp]) and
    React's [createElement] (constructors of the element types). *)

From Stdlib Require Import ZArith Lia Ascii String List.
From stdpp Require Import base option list gmap strings sorting.

Local Open Scope string_scope.
Local Open Scope list_scope.
Local Open Scope Z_scope.

(** ** JavaScript values the source relies on *)

(** Logical instants of the event loop: a promise is settled "from
    instant [t] on", a reaction runs at some instant not before it. *)
Definition Instant := nat.
Bind Scope nat_scope with Instant.

(** A rejection reason or thrown value, seen through the only thing the
    source does with it, [error.stack].  Reading a property of [null] or
    [undefined] throws; any other value yields its [stack] property
    ([None] stands for [undefined]: the value has no such property). *)
Inductive Reason :=
| Nullish
| ErrorValue (stack : option string).

(** The value of a call that either returns or throws. *)
Inductive Completion (A : Type) :=
| Returns (x : A)
| Throws (e : Reason).
Arguments Returns {A} x.
Arguments Throws {A} e.

(** The [TypeError] of reading a property of [undefined] or [null], of
    destructuring [null], or of calling what is not a function. *)
Definition TypeError : Reason := ErrorValue (Some "TypeError").

(** [error.stack] *)
Definition stack_of (error : Reason) : Completion (option string) :=
  match error with
  | Nullish => Throws TypeError
  | ErrorValue s => Returns s
  end.

(** [n += 1] on a JavaScript number holding an integer: exact below
    [2^53]; at [2^53] the sum is not representable and rounds back to
    [2^53].  (A counter that starts at [0] only takes the values
    [0 .. 2^53].) *)
Definition MAX_EXACT : Z := 2 ^ 53.

Definition number_succ (n : Z) : Z :=
  if (n <? MAX_EXACT)%Z then n + 1 else n.

(** [s.slice(n)]: [s] without its first [n] characters. *)
Fixpoint slice (n : nat) (s : string) : string :=
  match n, s with
  | O, _ => s
  | S n', String _ s' => slice n' s'
  | S _, EmptyString => EmptyString
  end.

(** [o[key] = v] on an object created by [{}]: the name [__proto__] is
    the accessor [Object.prototype] carries, whose setter changes the
    prototype of [o] (when [v] is an object or [null]) or does nothing,
    and adds no property in either case; any other name becomes an own
    property of [o]. *)
Definition set_property {V} (key : string) (v : V) (o : gmap string V) : gmap string V :=
  if String.eqb key "__proto__" then o else <[key := v]> o.

(** What calling a loaded component as a plain function does, with two
    functions for arguments: it returns (a function component takes
    them for its props and context and calls neither) or it throws (a
    class cannot be called without [new]). *)
Class Callable (Component : Type) :=
  call_as_function : Component -> Completion unit.

(** ** Promises

    A promise is described by what it settles to and from which instant
    on, or by the fact that it never settles. *)
Module Promise.

Inductive Settled (A : Type) :=
| Fulfilled (v : A)
| Rejected (e : Reason).
Arguments Fulfilled {A} v.
Arguments Rejected {A} e.

Inductive t (A : Type) :=
| Settles (at_ : Instant) (o : Settled A)
| Forever.
Arguments Settles {A} at_ o.
Arguments Forever {A}.

(** [IntoPromise<T> = T | Promise<T>] *)
Inductive IntoPromise (A : Type) :=
| Raw (v : A)
| Thenable (p : t A).
Arguments Raw {A} v.
Arguments Thenable {A} p.

(** [Promise.resolve(x)], called at instant [now]: a promise is
    returned as it is, any other value is wrapped in a promise that is
    already fulfilled. *)
Definition resolve {A} (now : Instant) (x : IntoPromise A) : t A :=
  match x with
  | Raw v => Settles now (Fulfilled v)
  | Thenable p => p
  end.

(** [p.then(f)] for a callback [f] that cannot throw. *)
Definition then_ {A B} (f : A -> B) (p : t A) : t B :=
  match p with
  | Settles at_ (Fulfilled v) => Settles at_ (Fulfilled (f v))
  | Settles at_ (Rejected e) => Settles at_ (Rejected e)
  | Forever => Forever
  end.

(** [p.then(f)] for a callback whose value is resolved rather than
    stored: [f at_ v] is the promise that the value returned at instant
    [at_] resolves to. *)
Definition and_then {A B} (f : Instant -> A -> t B) (p : t A) : t B :=
  match p with
  | Settles at_ (Fulfilled v) => f at_ v
  | Settles at_ (Rejected e) => Settles at_ (Rejected e)
  | Forever => Forever
  end.

(** The earliest rejection among [ps]; of two rejections at the same
    instant the one earlier in the list wins. *)
Fixpoint first_rejection {A} (ps : list (t A)) : option (Instant * Reason) :=
  match ps with
  | [] => None
  | p :: ps' =>
      match p, first_rejection ps' with
      | Settles at_ (Rejected e), Some (at', e') =>
          if (at' <? at_)%nat then Some (at', e') else Some (at_, e)
      | Settles at_ (Rejected e), None => Some (at_, e)
      | _, r => r
      end
  end.

(** The values of [ps] and the instant the last one is fulfilled, when
    every promise of [ps] is fulfilled; counted from [now]. *)
Fixpoint all_fulfilled {A} (now : Instant) (ps : list (t A)) : option (Instant * list A) :=
  match ps with
  | [] => Some (now, [])
  | Settles at_ (Fulfilled v) :: ps' =>
      match all_fulfilled now ps' with
      | Some (at', vs) => Some (Nat.max at_ at', v :: vs)
      | None => None
      end
  | _ :: _ => None
  end.

(** [Promise.all(ps)], called at instant [now]: rejected as soon as one
    input is rejected, fulfilled with all the values (in input order)
    once every input is fulfilled, pending as long as neither holds. *)
Definition all {A} (now : Instant) (ps : list (t A)) : t (list A) :=
  match first_rejection ps with
  | Some (at_, e) => Settles at_ (Rejected e)
  | None =>
      match all_fulfilled now ps with
      | Some (at_, vs) => Settles at_ (Fulfilled vs)
      | None => Forever
      end
  end.

End Promise.

Import Promise.

(** A thunk [() => IntoPromise<T>]: what a call made at a given instant
    returns (or throws). *)
Definition Thunk (A : Type) := Instant -> Completion (IntoPromise A).

(** ** [path-to-regexp]: the interface the source uses *)

(** An entry of [pathRegExp.keys]. *)
Record Key := { name : string }.

(** [pathToRegexp.PathRegExp]: a regular expression with its [keys].

    [exec s] is [None] for JavaScript's [null]; otherwise it carries what
    the result array holds, the whole match first and then one entry per
    capture group ([None] for a group that took no part in the match).
    The expressions [path-to-regexp] builds carry no [g] or [y] flag, so
    [exec] and [test] do not depend on earlier calls. *)
Record PathRegExp := {
  exec : string -> option (string * list (option string));
  keys : list Key;
}.

(** [pathRegExp.test(s)] *)
Definition test (re : PathRegExp) (s : string) : bool :=
  match exec re s with
  | Some _ => true
  | None => false
  end.

(** ** [PathProvider] *)
Module PathProvider.

(** [PathProviderData] *)
Record Data := { path : string }.

(** [getChildContext ()], with [props] for [this.props]. *)
Definition getChildContext (props : Data) : Data :=
  {| path := path props |}.

End PathProvider.

(** ** [toRouteHandler] *)

Section Detour.

(** [ComponentType<any>]: whatever a loader yields; the source hands
    it to [createElement], and a promise may call it (see
    [resolve_componentsMap]). *)
Variable Component : Type.
Context {callable : Callable Component}.

(** [pathToRegexp(path, { end })] *)
Variable pathToRegexp : string -> bool -> PathRegExp.

(** The [component] field of a [UserRouteHandler]: a single thunk
    ([typeof component === 'function']) or an object of thunks. *)
Inductive UserComponent :=
| Single (thunk : Thunk Component)
| Named (thunks : gmap string (Thunk Component)).

(** [UserRouteHandler]; [end_ = None] is an [end] that is not a boolean
    (the field is optional). *)
Record UserRouteHandler := {
  path : string;
  end_ : option bool;
  component : UserComponent;
}.

(** [RouteHandler] *)
Record RouteHandler := {
  pathRegExp : PathRegExp;
  getComponents : Instant -> Completion (Promise.t (gmap string Component));
}.

(** [Object.keys(o)].  The keys come in the order of the map, which is
    not the order of JavaScript (integer keys first, then insertion
    order): the order only decides which of several throwing thunks
    throws first and which of several rejections at one instant wins,
    and nothing below depends on either. *)
Definition Object_keys {V} (o : gmap string V) : list string :=
  (map_to_list o).*1.

(** [keys.map(key => Promise.resolve(component[key]()))]: the thunks are
    called one after the other, and the first that throws ends the
    traversal. *)
Fixpoint call_thunks (now : Instant) (component : gmap string (Thunk Component))
    (keys : list string) : Completion (list (Promise.t Component)) :=
  match keys with
  | [] => Returns []
  | key :: keys' =>
      match component !! key with
      | None => Throws TypeError
      | Some thunk =>
          match thunk now with
          | Throws e => Throws e
          | Returns x =>
              match call_thunks now component keys' with
              | Throws e => Throws e
              | Returns ps => Returns (Promise.resolve now x :: ps)
              end
          end
      end
  end.

(** [keys.forEach((key, i) => componentsMap[key] = components[i])].
    [components] is the value of [Promise.all] over [keys.map ...], so
    the two lists have the same length.  A key [__proto__] adds no
    entry (see [set_property]). *)
Fixpoint fill_componentsMap (keys : list string) (components : list Component)
    (componentsMap : gmap string Component) : gmap string Component :=
  match keys, components with
  | key :: keys', c :: components' =>
      fill_componentsMap keys' components' (set_property key c componentsMap)
  | _, _ => componentsMap
  end.

(** What the promise returned by [componentsPromise.then(...)] does
    with the [componentsMap] its callback returns at instant [at_].
    The value is resolved, not stored: a map with an entry [then] is a
    thenable, and its [then], a loaded component, is called with the
    two resolving functions.  The promise is then rejected if the call
    throws and stays pending otherwise; a map without such an entry
    fulfils the promise. *)
Definition resolve_componentsMap (at_ : Instant) (componentsMap : gmap string Component)
    : Promise.t (gmap string Component) :=
  match componentsMap !! "then" with
  | None => Settles at_ (Fulfilled componentsMap)
  | Some then_ =>
      match call_as_function then_ with
      | Returns _ => Forever
      | Throws e => Settles at_ (Rejected e)
      end
  end.

(** The [end] option handed to [pathToRegexp]:
    [typeof end === 'boolean' ? end : path === '/']. *)
Definition end_option (path : string) (end_ : option bool) : bool :=
  match end_ with
  | Some b => b
  | None => String.eqb path "/"
  end.

(** The body of the [getComponents] arrow function. *)
Definition getComponents_of (component : UserComponent) (now : Instant)
    : Completion (Promise.t (gmap string Component)) :=
  match component with
  | Single thunk =>
      match thunk now with
      | Throws e => Throws e
      | Returns x =>
          Returns (Promise.then_
                     (fun defaultComponent => {[ "default" := defaultComponent ]})
                     (Promise.resolve now x))
      end
  | Named thunks =>
      let keys := Object_keys thunks in
      match call_thunks now thunks keys with
      | Throws e => Throws e
      | Returns ps =>
          let componentsPromise := Promise.all now ps in
          Returns (Promise.and_then
                     (fun at_ components =>
                        resolve_componentsMap at_ (fill_componentsMap keys components ∅))
                     componentsPromise)
      end
  end.

Definition toRouteHandler (h : UserRouteHandler) : RouteHandler :=
  {| pathRegExp := pathToRegexp (path h) (end_option (path h) (end_ h));
     getComponents := getComponents_of (component h) |}.

(** ** Elements *)

(** What [createElement] builds below an outlet: a loaded component with
    the route's [params] as props, or a [PathProvider] around one child. *)
Inductive ReactElement :=
| ComponentElement (type : Component) (props : gmap string (option string))
| PathProviderElement (props : PathProvider.Data) (children : ReactElement).

(** [providePath (path, element)] *)
Definition providePath (path : string) (element : ReactElement) : ReactElement :=
  PathProviderElement {| PathProvider.path := path |} element.

(** ** [withRoutes]: the [RouteOutlet] class *)

(** The first curried parameter of [withRoutes]. *)
Variable userRouteHandlers : list UserRouteHandler.

(** [static routeHandlers = userRouteHandlers.map(toRouteHandler)] *)
Definition routeHandlers : list RouteHandler :=
  map toRouteHandler userRouteHandlers.

(** What the two reactions attached in [computeOutlet] close over
    ([zoneID], [path], [routeHandler]) and the promise they wait for
    ([routeHandler.getComponents()]). *)
Record Closure := {
  c_zoneID : Z;
  c_path : string;
  c_routeHandler : RouteHandler;
  c_promise : Promise.t (gmap string Component);
}.

(** A [RouteOutlet] instance in its environment: [outlets] is
    [this.state.outlets] and [currentZoneID] the field of that name;
    [pending] are the reactions attached and not yet run, [console] what
    [console.error] has received (oldest first), [now] the clock.
    [setState] is taken to act at once: React applies queued updates in
    the order they were made. *)
Record RouteOutlet := {
  outlets : gmap string ReactElement;
  currentZoneID : Z;
  pending : list Closure;
  console : list (option string);
  now : Instant;
}.

(** [state = { outlets: {} }], [currentZoneID = 0], at instant [t]. *)
Definition initial (t : Instant) : RouteOutlet :=
  {| outlets := ∅; currentZoneID := 0; pending := []; console := []; now := t |}.

(** [this.setState({ outlets })] *)
Definition setState (outlets' : gmap string ReactElement) (this : RouteOutlet) : RouteOutlet :=
  {| outlets := outlets'; currentZoneID := currentZoneID this;
     pending := pending this; console := console this; now := now this |}.

Definition set_currentZoneID (z : Z) (this : RouteOutlet) : RouteOutlet :=
  {| outlets := outlets this; currentZoneID := z;
     pending := pending this; console := console this; now := now this |}.

Definition set_pending (cs : list Closure) (this : RouteOutlet) : RouteOutlet :=
  {| outlets := outlets this; currentZoneID := currentZoneID this;
     pending := cs; console := console this; now := now this |}.

(** [console.error(x)] *)
Definition console_error (x : option string) (this : RouteOutlet) : RouteOutlet :=
  {| outlets := outlets this; currentZoneID := currentZoneID this;
     pending := pending this; console := console this ++ [x]; now := now this |}.

Definition set_now (t : Instant) (this : RouteOutlet) : RouteOutlet :=
  {| outlets := outlets this; currentZoneID := currentZoneID this;
     pending := pending this; console := console this; now := t |}.

(** How a call or a reaction ends: normally, or with a value thrown. *)
Inductive Outcome :=
| Normal
| Abrupt (e : Reason).

(** [computeOutlet (path)], up to the point where the reactions are
    attached.  A thunk that throws makes [getComponents()] throw, and the
    exception leaves [computeOutlet] after the counter was advanced. *)
Definition computeOutlet (path : string) (this : RouteOutlet) : RouteOutlet * Outcome :=
  let zoneID := number_succ (currentZoneID this) in
  let this := set_currentZoneID zoneID this in
  match find (fun h => test (pathRegExp h) path) routeHandlers with
  | None => (setState ∅ this, Normal)
  | Some routeHandler =>
      match getComponents routeHandler (now this) with
      | Throws e => (this, Abrupt e)
      | Returns promise =>
          (set_pending
             (pending this ++
                [{| c_zoneID := zoneID; c_path := path;
                    c_routeHandler := routeHandler; c_promise := promise |}])
             this,
           Normal)
      end
  end.

(** [componentDidMount ()], with [context] for [this.context]. *)
Definition componentDidMount (context : PathProvider.Data) (this : RouteOutlet) :=
  computeOutlet (PathProvider.path context) this.

(** [componentWillReceiveProps (nextProps, nextContext)] *)
Definition componentWillReceiveProps (nextContext : PathProvider.Data) (this : RouteOutlet) :=
  computeOutlet (PathProvider.path nextContext) this.

(** [matches.forEach((match, i) => params[keys[i].name] = match)]:
    reading [.name] of a [keys[i]] that does not exist throws, and a
    key named [__proto__] adds no entry (see [set_property]). *)
Fixpoint assign_params (keys : list Key) (matches : list (option string))
    (params : gmap string (option string)) {struct matches}
    : Completion (gmap string (option string)) :=
  match matches with
  | [] => Returns params
  | m :: matches' =>
      match keys with
      | [] => Throws TypeError
      | key :: keys' => assign_params keys' matches' (set_property (name key) m params)
      end
  end.

(** [Object.keys(components).forEach(key => outlets[key] = ...)], from
    an empty [outlets]: one element per key of [components]. *)
Definition make_outlets (pathRest : string) (params : gmap string (option string))
    (components : gmap string Component) : gmap string ReactElement :=
  (fun c => providePath pathRest (ComponentElement c params)) <$> components.

(** The reaction passed to [.then]: nothing is changed before the last
    statement, so a throw leaves the instance as it was. *)
Definition onFulfilled (c : Closure) (components : gmap string Component)
    (this : RouteOutlet) : Completion RouteOutlet :=
  if negb (c_zoneID c =? currentZoneID this)%Z then Returns this
  else
    match exec (pathRegExp (c_routeHandler c)) (c_path c) with
    | None => Throws TypeError
    | Some (matched, matches) =>
        let pathRest := slice (String.length matched) (c_path c) in
        match assign_params (keys (pathRegExp (c_routeHandler c))) matches ∅ with
        | Throws e => Throws e
        | Returns params =>
            Returns (setState (make_outlets pathRest params components) this)
        end
    end.

(** The reaction passed to [.catch]. *)
Definition onRejected (c : Closure) (error : Reason) (this : RouteOutlet)
    : Completion RouteOutlet :=
  match stack_of error with
  | Throws e => Throws e
  | Returns stack =>
      let this := console_error stack this in
      if negb (c_zoneID c =? currentZoneID this)%Z then Returns this
      else Returns (setState ∅ this)
  end.

(** [.then(onFulfilled).catch(onRejected)] once the promise has settled:
    [onRejected] receives a rejection of the awaited promise as well as
    whatever [onFulfilled] throws; what [onRejected] itself throws is
    handled by nobody. *)
Definition react (c : Closure) (o : Promise.Settled (gmap string Component))
    (this : RouteOutlet) : RouteOutlet * Outcome :=
  let caught error :=
    match onRejected c error this with
    | Returns this' => (this', Normal)
    | Throws e => (this, Abrupt e)
    end in
  match o with
  | Fulfilled components =>
      match onFulfilled c components this with
      | Returns this' => (this', Normal)
      | Throws e => caught e
      end
  | Rejected error => caught error
  end.

(** [render ()]: the element of the composed component, with the props
    object [Object.assign({}, this.props, { outlets })] and the third
    argument of [createElement], [outlets['default']] ([None] when the
    key is absent). *)
Record ComposedProps (P : Type) := {
  passed : P;
  outlets_prop : gmap string ReactElement;
}.

Record ComposedElement (P : Type) := {
  props : ComposedProps P;
  children : option ReactElement;
}.

Definition render {P : Type} (this_props : P) (this : RouteOutlet) : ComposedElement P :=
  let outlets := outlets this in
  {| props := {| passed := this_props; outlets_prop := outlets |};
     children := outlets !! "default" |}.

(** ** The event loop around one instance *)

(** What can happen to an instance: the path source calls
    [computeOutlet], the clock advances, or the reactions of the [i]-th
    pending closure run. *)
Inductive Event :=
| Call (path : string)
| Tick
| Settle (i : nat).

(** One event; [None] when the event cannot happen (no such closure, or
    its promise is not settled yet).  Reactions never run before their
    promise settles; how long after, and in which order among those that
    are ready, is left to the sequence of events. *)
Definition step (ev : Event) (this : RouteOutlet) : option RouteOutlet :=
  match ev with
  | Call path => Some (fst (computeOutlet path this))
  | Tick => Some (set_now (S (now this)) this)
  | Settle i =>
      match pending this !! i with
      | None => None
      | Some c =>
          match c_promise c with
          | Forever => None
          | Settles at_ o =>
              if (at_ <=? now this)%nat
              then Some (fst (react c o (set_pending (delete i (pending this)) this)))
              else None
          end
      end
  end.

Fixpoint run (evs : list Event) (this : RouteOutlet) : option RouteOutlet :=
  match evs with
  | [] => Some this
  | ev :: evs' =>
      match step ev this with
      | None => None
      | Some this' => run evs' this'
      end
  end.

End Detour.

Arguments Single {Component} thunk.
Arguments Named {Component} thunks.
Arguments path {Component} u.
Arguments end_ {Component} u.
Arguments component {Component} u.
Arguments pathRegExp {Component} r.
Arguments getComponents {Component} r now.
Arguments call_thunks {Component} now component keys.
Arguments fill_componentsMap {Component} keys components componentsMap.
Arguments resolve_componentsMap {Component callable} at_ componentsMap.
Arguments getComponents_of {Component callable} component now.
Arguments toRouteHandler {Component callable} pathToRegexp h.
Arguments ComponentElement {Component} type props.
Arguments PathProviderElement {Component} props children.
Arguments providePath {Component} path element.
Arguments routeHandlers {Component callable} pathToRegexp userRouteHandlers.
Arguments c_zoneID {Component} c.
Arguments c_path {Component} c.
Arguments c_routeHandler {Component} c.
Arguments c_promise {Component} c.
Arguments outlets {Component} r.
Arguments currentZoneID {Component} r.
Arguments pending {Component} r.
Arguments console {Component} r.
Arguments now {Component} r.
Arguments initial {Component} t.
Arguments setState {Component} outlets' this.
Arguments set_currentZoneID {Component} z this.
Arguments set_pending {Component} cs this.
Arguments console_error {Component} x this.
Arguments set_now {Component} t this.
Arguments computeOutlet {Component callable} pathToRegexp userRouteHandlers path this.
Arguments componentDidMount {Component callable} pathToRegexp userRouteHandlers context this.
Arguments componentWillReceiveProps {Component callable} pathToRegexp userRouteHandlers nextContext this.
Arguments make_outlets {Component} pathRest params components.
Arguments onFulfilled {Component} c components this.
Arguments onRejected {Component} c error this.
Arguments react {Component} c o this.
Arguments passed {Component P} c.
Arguments outlets_prop {Component P} c.
Arguments props {Component P} c.
Arguments children {Component P} c.
Arguments render {Component P} this_props this.
Arguments step {Component callable} pathToRegexp userRouteHandlers ev this.
Arguments run {Component callable} pathToRegexp userRouteHandlers evs this.

(** ** A small pattern compiler for the worked examples

    The examples below need some [pathToRegexp].  This one reads a
    pattern segment by segment: a literal segment, [:name] for a
    parameter (one non-empty segment) and [*] for the rest of the path
    (parameter ["0"]).  A match always covers whole segments from the
    start of the path; with [end] set it must cover the whole path. *)
Module Segments.

Inductive Token :=
| Lit (s : string)
| Param (name : string)
| Star.

(** The pieces of [s] between its slashes: ["/a/b"] gives
    [[""; "a"; "b"]]. *)
Fixpoint pieces (s : string) : list string :=
  match s with
  | EmptyString => [EmptyString]
  | String c s' =>
      if Ascii.eqb c "/"%char then EmptyString :: pieces s'
      else match pieces s' with
           | x :: r => String c x :: r
           | [] => [String c EmptyString]
           end
  end.

Definition token_of (piece : string) : Token :=
  match piece with
  | String ":"%char n => Param n
  | String "*"%char EmptyString => Star
  | _ => Lit piece
  end.

(** The tokens of a pattern, which starts with a slash. *)
Definition tokens (pattern : string) : list Token :=
  match pieces pattern with
  | EmptyString :: ps => map token_of ps
  | _ => []
  end.

Definition key_of (t : Token) : list Key :=
  match t with
  | Lit _ => []
  | Param n => [{| name := n |}]
  | Star => [{| name := "0" |}]
  end.

Fixpoint join (segs : list string) : string :=
  match segs with
  | [] => EmptyString
  | [s] => s
  | s :: r => s +:+ "/" +:+ join r
  end.

(** Matches [toks] against the segments of a path; gives the matched
    text and the captures. *)
Fixpoint match_tokens (end_ : bool) (toks : list Token) (segs : list string)
    : option (string * list (option string)) :=
  match toks, segs with
  | [], [] => Some (EmptyString, [])
  | [], _ :: _ => if end_ then None else Some (EmptyString, [])
  | Star :: toks', _ :: _ =>
      match toks' with
      | [] => Some ("/" +:+ join segs, [Some (join segs)])
      | _ :: _ => None
      end
  | Lit s :: toks', seg :: segs' =>
      if String.eqb s seg then
        match match_tokens end_ toks' segs' with
        | Some (m, caps) => Some ("/" +:+ seg +:+ m, caps)
        | None => None
        end
      else None
  | Param _ :: toks', seg :: segs' =>
      if String.eqb seg EmptyString then None else
        match match_tokens end_ toks' segs' with
        | Some (m, caps) => Some ("/" +:+ seg +:+ m, Some seg :: caps)
        | None => None
        end
  | _ :: _, [] => None
  end.

Definition pathToRegexp (pattern : string) (end_ : bool) : PathRegExp :=
  {| exec := fun s =>
       match s with
       | String "/"%char s' => match_tokens end_ (tokens pattern) (pieces s')
       | _ => None
       end;
     keys := flat_map key_of (tokens pattern) |}.

End Segments.

(** ** Route tables of the test suite

    The tables of [src/__tests__/detour.js], with strings for the
    components, and loaders that settle at chosen instants. *)
Module Examples.

(** The components of the examples are strings: those that start with
    ["class "] stand for classes, the others for function components. *)
#[global] Instance string_components : Callable string :=
  fun c => if String.prefix "class " c then Throws TypeError else Returns tt.

(** A thunk that returns the component itself: [() => A]. *)
Definition sync (c : string) : Thunk string :=
  fun _ => Returns (Raw c).

(** A thunk whose promise is fulfilled [d] instants after the call. *)
Definition after (d : nat) (c : string) : Thunk string :=
  fun t => Returns (Thenable (Settles (t + d)%nat (Fulfilled c))).

(** A thunk whose promise is rejected [d] instants after the call. *)
Definition failing (d : nat) (e : Reason) : Thunk string :=
  fun t => Returns (Thenable (Settles (t + d)%nat (Rejected e))).

Definition route (p : string) (c : UserComponent string) : UserRouteHandler string :=
  {| path := p; end_ := None; component := c |}.

(** "withRoutes will do basic routing" *)
Definition basic : list (UserRouteHandler string) :=
  [ route "/a" (Single (sync "A")); route "/b" (Single (sync "B")) ].

(** "withRoutes will allow for not found routes" *)
Definition not_found : list (UserRouteHandler string) :=
  [ route "/a" (Single (sync "A"));
    route "/*" (Single (sync "B"));
    route "/c" (Single (sync "C")) ].

(** The same entries with the one for ["/a"] moved to the end. *)
Definition not_found_reordered : list (UserRouteHandler string) :=
  [ route "/*" (Single (sync "B"));
    route "/c" (Single (sync "C"));
    route "/a" (Single (sync "A")) ].

(** "withRoutes will pass down path params" *)
Definition with_params : list (UserRouteHandler string) :=
  [ route "/:a/:b" (Single (sync "A")) ].

(** "withRoutes will allow named component handlers" *)
Definition named : list (UserRouteHandler string) :=
  [ route "/ab" (Named (<["one" := sync "A"]> (<["two" := sync "B"]> ∅)));
    route "/cd" (Named (<["one" := sync "C"]> (<["two" := sync "D"]> ∅))) ].

(** An error object with a stack trace. *)
Definition boom : Reason := ErrorValue (Some "Error: boom").

(** The table [named] with slow loaders for ["/ab"], the one of [two]
    failing after three instants. *)
Definition named_failing : list (UserRouteHandler string) :=
  [ route "/ab" (Named (<["one" := after 1 "A"]> (<["two" := failing 3 boom]> ∅)));
    route "/cd" (Named (<["one" := sync "C"]> (<["two" := sync "D"]> ∅))) ].

(** Two routes with loaders of different speed. *)
Definition slow_fast : list (UserRouteHandler string) :=
  [ route "/x" (Single (after 5 "X")); route "/y" (Single (after 1 "Y")) ].

(** *** Runs on these tables *)

(** [slow_fast]: ["/x"] is requested, then ["/y"]. *)
Definition after_x : RouteOutlet string :=
  fst (computeOutlet Segments.pathToRegexp slow_fast "/x" (initial 0)).

Definition after_y : RouteOutlet string :=
  fst (computeOutlet Segments.pathToRegexp slow_fast "/y" after_x).

(** The loader of ["/y"] settles at instant 1 and its reactions run; the
    clock then reaches instant 5, where the loader of ["/x"] settles. *)
Definition y_published : RouteOutlet string :=
  default (initial 0)
    (run Segments.pathToRegexp slow_fast [Tick; Settle 1; Tick; Tick; Tick; Tick] after_y).

(** The reactions of the closure for ["/x"] run at last. *)
Definition x_late : RouteOutlet string :=
  default (initial 0) (step Segments.pathToRegexp slow_fast (Settle 0) y_published).

(** [with_params]: the closure a call with ["/4/2/rest"] attaches. *)
Definition params_closure : Closure string :=
  {| c_zoneID := 1; c_path := "/4/2/rest";
     c_routeHandler := toRouteHandler Segments.pathToRegexp (route "/:a/:b" (Single (sync "A")));
     c_promise := Settles 0 (Fulfilled {[ "default" := "A" ]}) |}.

(** [named_failing]: ["/ab"] is requested and the clock reaches instant
    3, where the loader of [two] is rejected. *)
Definition ab_rejected : RouteOutlet string :=
  default (initial 0)
    (run Segments.pathToRegexp named_failing [Call "/ab"; Tick; Tick; Tick] (initial 0)).

(** [named_failing]: ["/ab"] is requested, then ["/cd"], whose loaders
    are immediate; its reactions run, and three instants later those of
    ["/ab"]. *)
Definition ab_then_cd : list Event :=
  [Call "/ab"; Call "/cd"; Settle 1; Tick; Tick; Tick].

Definition cd_published : RouteOutlet string :=
  default (initial 0) (run Segments.pathToRegexp named_failing ab_then_cd (initial 0)).

(** The closure of ["/ab"] in that run. *)
Definition ab_closure : Closure string :=
  {| c_zoneID := 1; c_path := "/ab";
     c_routeHandler :=
       toRouteHandler Segments.pathToRegexp
         (route "/ab" (Named (<["one" := after 1 "A"]> (<["two" := failing 3 boom]> ∅))));
     c_promise := Settles 3 (Rejected boom) |}.

(** A pattern that uses one parameter name for two segments. *)
Definition same_name : list (UserRouteHandler string) :=
  [ route "/:a/:a" (Single (sync "A")) ].

(** The closure a call with ["/1/2"] attaches. *)
Definition same_name_closure : Closure string :=
  {| c_zoneID := 1; c_path := "/1/2";
     c_routeHandler := toRouteHandler Segments.pathToRegexp (route "/:a/:a" (Single (sync "A")));
     c_promise := Settles 0 (Fulfilled {[ "default" := "A" ]}) |}.

(** A route whose loader returns [Promise.reject(undefined)], next to
    one that loads at once. *)
Definition rejecting_undefined : list (UserRouteHandler string) :=
  [ route "/y" (Single (sync "Y")); route "/n" (Single (failing 0 Nullish)) ].

(** ["/y"] is requested and published, then ["/n"] is requested: its
    closure is the current one. *)
Definition n_current : RouteOutlet string :=
  default (initial 0)
    (run Segments.pathToRegexp rejecting_undefined [Call "/y"; Settle 0; Call "/n"] (initial 0)).

Definition n_current_closure : Closure string :=
  {| c_zoneID := 2; c_path := "/n";
     c_routeHandler := toRouteHandler Segments.pathToRegexp (route "/n" (Single (failing 0 Nullish)));
     c_promise := Settles 0 (Rejected Nullish) |}.

(** ["/n"] is requested, then ["/y"], which is published: the closure of
    ["/n"] is superseded. *)
Definition n_superseded : RouteOutlet string :=
  default (initial 0)
    (run Segments.pathToRegexp rejecting_undefined [Call "/n"; Call "/y"; Settle 1] (initial 0)).

Definition n_superseded_closure : Closure string :=
  {| c_zoneID := 1; c_path := "/n";
     c_routeHandler := toRouteHandler Segments.pathToRegexp (route "/n" (Single (failing 0 Nullish)));
     c_promise := Settles 0 (Rejected Nullish) |}.

End Examples.

(** ** [PathProvider.render] and the counting of events *)

Section Provider.

Variable Component : Type.

(** [this.props.children] as React hands it to a component: nothing the
    test [!children] lets through, one element, or anything else
    (several children, a text). *)
Inductive ChildrenProp :=
| NoChildren
| OnlyChild (element : ReactElement Component)
| OtherChildren.

(** The props of a [PathProvider]: its [path] and its children. *)
Record ProviderProps := {
  provider_path : string;
  provider_children : ChildrenProp;
}.

(** [new Error('<PathProvider> must have children.')] *)
Definition must_have_children : Reason :=
  ErrorValue (Some "Error: <PathProvider> must have children.").

(** What [Children.only] throws when it is not given a single element. *)
Definition not_an_only_child : Reason :=
  ErrorValue (Some "Invariant Violation: onlyChild").

(** [render ()] of [PathProvider]: [Children.only(children)] unless
    there are no children. *)
Definition PathProvider_render (props : ProviderProps) : Completion (ReactElement Component) :=
  match provider_children props with
  | NoChildren => Throws must_have_children
  | OnlyChild element => Returns element
  | OtherChildren => Throws not_an_only_child
  end.

(** The props React builds for [createElement(PathProvider, { path },
    element)]; [None] for an element of another type. *)
Definition provider_props (element : ReactElement Component) : option ProviderProps :=
  match element with
  | PathProviderElement data child =>
      Some {| provider_path := PathProvider.path data; provider_children := OnlyChild child |}
  | ComponentElement _ _ => None
  end.

End Provider.

Arguments NoChildren {Component}.
Arguments OnlyChild {Component} element.
Arguments OtherChildren {Component}.
Arguments provider_path {Component} p.
Arguments provider_children {Component} p.
Arguments PathProvider_render {Component} props.
Arguments provider_props {Component} element.

(** The number of [computeOutlet] calls among [evs]. *)
Fixpoint calls (evs : list Event) : nat :=
  match evs with
  | [] => O
  | Call _ :: evs' => S (calls evs')
  | _ :: evs' => calls evs'
  end.

(** The number of [Settle] events among [evs]. *)
Fixpoint settles (evs : list Event) : nat :=
  match evs with
  | [] => O
  | Settle _ :: evs' => S (settles evs')
  | _ :: evs' => settles evs'
  end.

(** ** Further tables and closures for the worked examples *)
Module MoreExamples.

Import Examples.

(** A regular expression that reports one capture and has no key. *)
Definition keyless : PathRegExp :=
  {| exec := fun s => Some (s, [Some "x"]); keys := [] |}.

(** A current closure of a route with that expression. *)
Definition keyless_closure : Closure string :=
  {| c_zoneID := 0; c_path := "/k";
     c_routeHandler := {| pathRegExp := keyless;
                          getComponents := getComponents_of (Single (sync "K")) |};
     c_promise := Settles 0 (Fulfilled {[ "default" := "K" ]}) |}.

(** A route whose loader throws. *)
Definition throwing : list (UserRouteHandler string) :=
  [ route "/t" (Single (fun _ => Throws boom)) ].


(** The closures attached for ["/x"] and ["/y"] in [after_y]. *)
Definition x_closure : Closure string :=
  {| c_zoneID := 1; c_path := "/x";
     c_routeHandler := toRouteHandler Segments.pathToRegexp (route "/x" (Single (after 5 "X")));
     c_promise := Settles 5 (Fulfilled {[ "default" := "X" ]}) |}.

Definition y_closure : Closure string :=
  {| c_zoneID := 2; c_path := "/y";
     c_routeHandler := toRouteHandler Segments.pathToRegexp (route "/y" (Single (after 1 "Y")));
     c_promise := Settles 1 (Fulfilled {[ "default" := "Y" ]}) |}.

(** The clock of [after_y] moved to instant 5. *)
Definition both_ready : RouteOutlet string :=
  default (initial 0)
    (run Segments.pathToRegexp slow_fast (repeat Tick 5) after_y).

(** A current closure for ["/a/b/c"] on the route ["/a"], and one for
    ["/ab/cd"] on the multi-outlet route ["/ab"]. *)
Definition a_closure : Closure string :=
  {| c_zoneID := 0; c_path := "/a/b/c";
     c_routeHandler := toRouteHandler Segments.pathToRegexp (route "/a" (Single (sync "A")));
     c_promise := Settles 0 (Fulfilled {[ "default" := "A" ]}) |}.

Definition ab_named : UserRouteHandler string :=
  route "/ab" (Named (<["one" := sync "A"]> (<["two" := sync "B"]> ∅))).

Definition ab_named_closure : Closure string :=
  {| c_zoneID := 0; c_path := "/ab/cd";
     c_routeHandler := toRouteHandler Segments.pathToRegexp ab_named;
     c_promise := Settles 0 (Fulfilled (<["one" := "A"]> {[ "two" := "B" ]})) |}.



(** A multi-outlet route with a loader whose promise never settles. *)
Definition hanging_thunks : gmap string (Thunk string) :=
  <["one" := sync "A"]> (<["two" := fun _ => Returns (Thenable Forever)]> ∅).

(** A multi-outlet route with a key named [__proto__]. *)
Definition proto_thunks : gmap string (Thunk string) :=
  <["one" := sync "A"]> (<["__proto__" := sync "B"]> ∅).

End MoreExamples.

(** * Properties *)

Section Properties.

Context {Component : Type} {callable : Callable Component}.
Variable pathToRegexp : string -> bool -> PathRegExp.
Variable userRouteHandlers : list (UserRouteHandler Component).

Local Abbreviation computeOutlet := (computeOutlet pathToRegexp userRouteHandlers).
Local Abbreviation step := (step pathToRegexp userRouteHandlers).
Local Abbreviation run := (run pathToRegexp userRouteHandlers).
Local Abbreviation routeHandlers := (routeHandlers pathToRegexp userRouteHandlers).
Local Abbreviation toRouteHandler := (toRouteHandler pathToRegexp).

(** ** Match selection *)

Section Selection.

Variable path : string.

(** The predicate handed to [find] in [computeOutlet]. *)
Let matching (h : RouteHandler Component) : bool := test (pathRegExp h) path.

Lemma find_lowest_index (table : list (RouteHandler Component)) h :
  find matching table = Some h <->
  exists i, table !! i = Some h /\ matching h = true /\
            forall j h', (j < i)%nat -> table !! j = Some h' -> matching h' = false.
Proof.
  induction table as [|h0 table IH]; simpl.
  - split; [discriminate|]. intros (i & Hi & _). by destruct i.
  - destruct (matching h0) eqn:E.
    + split.
      * intros [= <-]. exists 0%nat. repeat split; auto. intros j h' Hj. lia.
      * intros (i & Hi & Hm & Hlow). destruct i as [|i]; simpl in Hi.
        -- congruence.
        -- specialize (Hlow 0%nat h0 ltac:(lia) eq_refl). congruence.
    + rewrite IH. split.
      * intros (i & Hi & Hm & Hlow). exists (S i). repeat split; auto.
        intros [|j] h' Hj Hl; simpl in Hl; [congruence|].
        apply (Hlow j); [lia|done].
      * intros (i & Hi & Hm & Hlow). destruct i as [|i]; simpl in Hi.
        -- congruence.
        -- exists i. repeat split; auto. intros j h' Hj Hl.
           apply (Hlow (S j)); [lia|done].
Qed.

Lemma find_none_iff (table : list (RouteHandler Component)) :
  find matching table = None <-> forall h, h ∈ table -> matching h = false.
Proof.
  induction table as [|h0 table IH]; simpl.
  - split; [|done]. intros _ h Hh. by apply not_elem_of_nil in Hh.
  - destruct (matching h0) eqn:E.
    + split; [discriminate|]. intros H. rewrite H in E; [discriminate|]. by left.
    + rewrite IH. split.
      * intros H h Hh. apply elem_of_cons in Hh as [->|Hh]; auto.
      * intros H h Hh. apply H. by right.
Qed.

Lemma find_head_filter (table : list (RouteHandler Component)) :
  find matching table = head (List.filter matching table).
Proof.
  induction table as [|h0 table IH]; simpl; [done|].
  by destruct (matching h0).
Qed.

End Selection.

(** ** Assignments to an object *)

Lemma lookup_set_property_eq {V} (key : string) (v : V) (o : gmap string V) :
  key <> "__proto__" -> set_property key v o !! key = Some v.
Proof.
  intros Hne. unfold set_property. apply String.eqb_neq in Hne. rewrite Hne.
  apply lookup_insert_eq.
Qed.

Lemma lookup_set_property_ne {V} (key n : string) (v : V) (o : gmap string V) :
  key <> n -> set_property key v o !! n = o !! n.
Proof.
  intros Hne. unfold set_property. destruct (String.eqb key "__proto__"); [done|].
  by apply lookup_insert_ne.
Qed.

Lemma lookup_set_property_proto {V} (key : string) (v : V) (o : gmap string V) :
  set_property key v o !! "__proto__" = o !! "__proto__".
Proof.
  unfold set_property. destruct (String.eqb key "__proto__") eqn:E; [done|].
  apply String.eqb_neq in E. by apply lookup_insert_ne.
Qed.

(** ** No match *)

(** C4. When no entry of the table matches the path, [computeOutlet]
    sets the outlet mapping to empty within the call and returns
    normally.  This holds for every instance, whatever its counter and
    whatever is still pending: the only use of the counter is to advance
    it, no reaction is attached and nothing is reported. *)
Theorem no_match_clears_outlets (path : string) (this : RouteOutlet Component) :
  (forall h, h ∈ routeHandlers -> test (pathRegExp h) path = false) ->
  exists this',
    computeOutlet path this = (this', Normal) /\
    outlets this' = ∅ /\
    currentZoneID this' = number_succ (currentZoneID this) /\
    pending this' = pending this /\
    console this' = console this /\
    now this' = now this.
Proof.
  intros Hno. apply find_none_iff in Hno.
  unfold computeOutlet. rewrite Hno. eexists. split; [reflexivity|].
  by simpl.
Qed.

(** ** [toRouteHandler] *)

(** C6. The [end] option [toRouteHandler] hands to [pathToRegexp] is the
    user's [end] when that is a boolean; otherwise it is [true] exactly
    when the pattern is ["/"]. *)
Theorem end_defaults_to_root_only (u : UserRouteHandler Component) :
  pathRegExp (toRouteHandler u) = pathToRegexp (path u) (end_option (path u) (end_ u))
  /\ (forall b, end_ u = Some b -> end_option (path u) (end_ u) = b)
  /\ (end_ u = None -> (end_option (path u) (end_ u) = true <-> path u = "/"))
  /\ (end_ u = None -> (end_option (path u) (end_ u) = false <-> path u <> "/")).
Proof.
  split; [reflexivity|]. split; [|split].
  - by intros b ->.
  - intros ->. simpl. apply String.eqb_eq.
  - intros ->. simpl. apply String.eqb_neq.
Qed.

(** C8. For a route whose loader is a single thunk, the promise of
    [getComponents()] is fulfilled exactly when the thunk's result is,
    at the same instant, and its value is the one-entry map with the
    thunk's resolved result under ["default"]. *)
Theorem single_thunk_default_map (u : UserRouteHandler Component)
    (thunk : Thunk Component) (now : Instant) (x : IntoPromise Component) :
  component u = Single thunk ->
  thunk now = Returns x ->
  exists p,
    getComponents (toRouteHandler u) now = Returns p /\
    (forall at_ view,
        Promise.resolve now x = Settles at_ (Fulfilled view) ->
        p = Settles at_ (Fulfilled {[ "default" := view ]})) /\
    (forall at_ m,
        p = Settles at_ (Fulfilled m) ->
        exists view,
          Promise.resolve now x = Settles at_ (Fulfilled view) /\
          m = {[ "default" := view ]} /\
          dom m = {[ "default" ]}).
Proof.
  intros Hc Hx. simpl. rewrite Hc. simpl. rewrite Hx.
  eexists. split; [reflexivity|]. split.
  - intros at_ view ->. reflexivity.
  - intros at_ m. destruct (Promise.resolve now x) as [t [v|e]|]; simpl; try discriminate.
    intros [= -> <-]. exists v. split; [done|]. split; [done|].
    by rewrite dom_singleton_L.
Qed.

(** ** [render] *)

(** C9. The composed component is rendered with the instance's own
    props and, under [outlets], the whole current outlet mapping (every
    key, ["default"] included); its children are the element of the
    ["default"] outlet when there is one, and nothing otherwise. *)
Theorem render_offers_outlets {P : Type} (this_props : P) (this : RouteOutlet Component) :
  passed (props (render this_props this)) = this_props
  /\ outlets_prop (props (render this_props this)) = outlets this
  /\ (forall key, outlets_prop (props (render this_props this)) !! key = outlets this !! key)
  /\ (forall element, outlets this !! "default" = Some element ->
                      children (render this_props this) = Some element)
  /\ (outlets this !! "default" = None -> children (render this_props this) = None).
Proof.
  unfold render; simpl. repeat split; auto.
Qed.

(** ** The two reactions *)

Lemma number_succ_ge (n : Z) : n <= number_succ n.
Proof. unfold number_succ. destruct (n <? MAX_EXACT); lia. Qed.

Lemma number_succ_exact (n : Z) : n < MAX_EXACT -> number_succ n = n + 1.
Proof. unfold number_succ. intros H. apply Z.ltb_lt in H. by rewrite H. Qed.

(** At [2^53] the counter stays where it is. *)
Remark number_succ_saturates : number_succ MAX_EXACT = MAX_EXACT.
Proof. reflexivity. Qed.

(** A reaction of a superseded closure never touches the outlet mapping,
    the counter or the pending reactions, however its promise settled. *)
Lemma react_stale (c : Closure Component) o (this : RouteOutlet Component) :
  c_zoneID c <> currentZoneID this ->
  outlets (fst (react c o this)) = outlets this /\
  currentZoneID (fst (react c o this)) = currentZoneID this /\
  pending (fst (react c o this)) = pending this /\
  now (fst (react c o this)) = now this.
Proof.
  intros Hne. apply Z.eqb_neq in Hne.
  unfold react, onFulfilled, onRejected.
  destruct o as [components|[|stack]]; simpl; rewrite ?Hne; simpl; auto.
Qed.

(** No reaction changes the counter. *)
Lemma react_currentZoneID (c : Closure Component) o (this : RouteOutlet Component) :
  currentZoneID (fst (react c o this)) = currentZoneID this.
Proof.
  unfold react, onFulfilled, onRejected.
  destruct o as [components|error]; simpl; repeat case_match; simplify_eq; by simpl.
Qed.

(** A rejection with [null] or [undefined] makes [error.stack] throw
    inside the reaction: nothing is reported or changed, and the
    [TypeError] is handled by nobody. *)
Remark nullish_reason_escapes (c : Closure Component) (this : RouteOutlet Component) :
  react c (Rejected Nullish) this = (this, Abrupt TypeError).
Proof. reflexivity. Qed.

(** X22. When the promise of a pending closure is rejected with a
    value other than [null] and [undefined] and its reactions run, the
    [stack] of that value is handed to [console.error] whether or not
    the closure's session is still current: the report comes before the
    check.  Only the clearing depends on the check: a current closure
    empties the outlet mapping, a superseded one leaves it alone.  The
    reaction ends normally, and the instance keeps its counter and its
    other pending closures. *)
Theorem error_rejection_reported_then_guarded (this : RouteOutlet Component) (i : nat)
    (c : Closure Component) (at_ : Instant) (stack : option string) :
  pending this !! i = Some c ->
  c_promise c = Settles at_ (Rejected (ErrorValue stack)) ->
  (at_ <= now this)%nat ->
  exists this',
    step (Settle i) this = Some this' /\
    react c (Rejected (ErrorValue stack)) (set_pending (delete i (pending this)) this)
      = (this', Normal) /\
    console this' = console this ++ [stack] /\
    (c_zoneID c = currentZoneID this -> outlets this' = ∅) /\
    (c_zoneID c <> currentZoneID this -> outlets this' = outlets this) /\
    currentZoneID this' = currentZoneID this /\
    pending this' = delete i (pending this).
Proof.
  intros Hi Hp Hat. unfold step. rewrite Hi, Hp.
  apply Nat.leb_le in Hat. rewrite Hat.
  unfold react, onRejected; simpl.
  destruct (c_zoneID c =? currentZoneID this) eqn:E; simpl;
    eexists; (split; [reflexivity|]); simpl; repeat split; auto.
  - apply Z.eqb_eq in E. congruence.
  - apply Z.eqb_neq in E. congruence.
Qed.

(** What the reactions of a pending closure do when its promise was
    rejected with [null] or [undefined]: the closure is removed, and
    that is all. *)
Lemma step_settle_nullish (this : RouteOutlet Component) (i : nat)
    (c : Closure Component) (at_ : Instant) :
  pending this !! i = Some c ->
  c_promise c = Settles at_ (Rejected Nullish) ->
  (at_ <= now this)%nat ->
  step (Settle i) this = Some (set_pending (delete i (pending this)) this).
Proof.
  intros Hi Hp Hat. unfold step. rewrite Hi, Hp.
  apply Nat.leb_le in Hat. by rewrite Hat.
Qed.

(** C7, where the code departs from it.  When the promise of a pending
    closure is rejected with [null] or [undefined] and its reactions
    run, [error.stack] throws inside the [catch] reaction: although the
    closure's session is still current, nothing reaches
    [console.error], the outlet mapping is not emptied, and the
    reaction ends with a [TypeError] that nothing handles. *)
Theorem nullish_rejection_not_recovered (this : RouteOutlet Component) (i : nat)
    (c : Closure Component) (at_ : Instant) :
  pending this !! i = Some c ->
  c_promise c = Settles at_ (Rejected Nullish) ->
  (at_ <= now this)%nat ->
  c_zoneID c = currentZoneID this ->
  exists this',
    step (Settle i) this = Some this' /\
    react c (Rejected Nullish) (set_pending (delete i (pending this)) this)
      = (this', Abrupt TypeError) /\
    console this' = console this /\
    outlets this' = outlets this.
Proof.
  intros Hi Hp Hat _. rewrite (step_settle_nullish this i c at_ Hi Hp Hat).
  by eexists.
Qed.

(** C10, where the code departs from it.  For a promise rejected with
    [null] or [undefined] the report is not made at all: whether the
    closure's session is current or superseded, the console is after
    the reactions what it was before, since [error.stack] throws before
    [console.error] is called and before the check is reached, and the
    reaction ends with that [TypeError].  A rejection of the same
    closure with any other value would have been reported, current or
    not. *)
Theorem nullish_rejection_not_reported (this : RouteOutlet Component) (i : nat)
    (c : Closure Component) (at_ : Instant) :
  pending this !! i = Some c ->
  c_promise c = Settles at_ (Rejected Nullish) ->
  (at_ <= now this)%nat ->
  exists this',
    step (Settle i) this = Some this' /\
    react c (Rejected Nullish) (set_pending (delete i (pending this)) this)
      = (this', Abrupt TypeError) /\
    console this' = console this /\
    (forall stack, console this' <> console this ++ [stack]) /\
    (forall stack,
        console (fst (react c (Rejected (ErrorValue stack))
                        (set_pending (delete i (pending this)) this)))
        = console this ++ [stack]).
Proof.
  intros Hi Hp Hat. rewrite (step_settle_nullish this i c at_ Hi Hp Hat).
  eexists. split; [reflexivity|]. split; [reflexivity|]. split; [done|]. split.
  - simpl. intros stack H. apply (f_equal length) in H.
    rewrite length_app in H. simpl in H. lia.
  - intros stack. unfold react, onRejected; simpl. by destruct (negb _).
Qed.

(** ** Extraction *)

(** Slicing off a prefix leaves the rest of the string. *)
Lemma prefix_slice (m s : string) :
  String.prefix m s = true -> m +:+ slice (String.length m) s = s.
Proof.
  revert s. induction m as [|a m IH]; intros s; [done|].
  destruct s as [|b s]; simpl; [done|].
  destruct (ascii_dec a b) as [->|]; [|done].
  intros H. change (String b (m +:+ slice (String.length m) s) = String b s).
  f_equal. by apply IH.
Qed.

(** [assign_params] succeeds when there is a key for every capture, and
    leaves the names of no key alone. *)
Lemma assign_params_spec (ks : list Key) (matches : list (option string))
    (acc : gmap string (option string)) :
  (length matches <= length ks)%nat ->
  exists params,
    assign_params ks matches acc = Returns params /\
    (forall n, n ∉ name <$> ks -> params !! n = acc !! n).
Proof.
  revert ks acc. induction matches as [|m matches IH]; intros ks acc Hlen; simpl.
  - by exists acc.
  - destruct ks as [|k ks]; simpl in Hlen; [lia|].
    destruct (IH ks (set_property (name k) m acc)) as (params & Hp & Hother); [lia|].
    exists params. split; [done|].
    intros n Hn. rewrite fmap_cons in Hn. apply not_elem_of_cons in Hn as [Hne Hn].
    rewrite (Hother n Hn). by apply lookup_set_property_ne.
Qed.

(** What [params] holds once [assign_params] has returned: a name that
    no key with a capture carries keeps what it had, and so does
    [__proto__]; a capture is found under the name of its key unless
    a later key with a capture has the same name; the names with an
    entry are those of the keys with a capture, [__proto__] aside. *)
Lemma assign_params_last (ks : list Key) (matches : list (option string))
    (acc params : gmap string (option string)) :
  assign_params ks matches acc = Returns params ->
  (forall n,
      (forall i key, (i < length matches)%nat -> ks !! i = Some key -> name key <> n) ->
      params !! n = acc !! n) /\
  params !! "__proto__" = acc !! "__proto__" /\
  (forall i key v,
      ks !! i = Some key -> matches !! i = Some v ->
      name key <> "__proto__" ->
      (forall j key', (i < j)%nat -> (j < length matches)%nat ->
                      ks !! j = Some key' -> name key' <> name key) ->
      params !! name key = Some v) /\
  (forall n,
      is_Some (params !! n) <->
      is_Some (acc !! n) \/
      (n <> "__proto__" /\
       exists i key, (i < length matches)%nat /\ ks !! i = Some key /\ name key = n)).
Proof.
  revert ks acc. induction matches as [|m matches IH]; intros ks acc; simpl.
  - intros [= <-]. split; [done|]. split; [done|]. split.
    + intros i key v _ Hm. by destruct i.
    + intros n. split; [by left|]. intros [H|(_ & i & key & Hi & _)]; [done|lia].
  - destruct ks as [|k ks]; [done|]. intros Hp.
    destruct (IH ks _ Hp) as (Hother & Hproto & Hnth & Hdom). split; [|split; [|split]].
    + intros n Hn. rewrite Hother.
      * apply lookup_set_property_ne. apply (Hn 0%nat k); [lia|done].
      * intros i key Hi Hk. apply (Hn (S i) key); [lia|done].
    + rewrite Hproto. apply lookup_set_property_proto.
    + intros [|i] key v Hi Hv Hne Hlater; simplify_eq/=.
      * rewrite Hother; [by apply lookup_set_property_eq|].
        intros i key' Hi Hk. apply (Hlater (S i) key'); [lia|lia|done].
      * apply (Hnth i key v Hi Hv Hne). intros j key' Hij Hj Hk'.
        apply (Hlater (S j) key'); [lia|lia|done].
    + intros n. rewrite Hdom. split.
      * intros [Hacc|(Hne & i & key & Hi & Hk & Hn)].
        -- destruct (decide (name k = n)) as [<-|Hkn].
           ++ destruct (decide (name k = "__proto__")) as [Hpr|Hpr].
              ** left. rewrite Hpr in Hacc |- *.
                 by rewrite lookup_set_property_proto in Hacc.
              ** right. split; [done|]. exists 0%nat, k. split; [lia|done].
           ++ left. by rewrite lookup_set_property_ne in Hacc.
        -- right. split; [done|]. exists (S i), key. split; [lia|done].
      * intros [Hacc|(Hne & i & key & Hi & Hk & Hn)].
        -- left. destruct (decide (name k = n)) as [<-|Hkn].
           ++ destruct (decide (name k = "__proto__")) as [Hpr|Hpr].
              ** rewrite Hpr in Hacc |- *. by rewrite lookup_set_property_proto.
              ** by rewrite lookup_set_property_eq.
           ++ by rewrite lookup_set_property_ne.
        -- destruct i as [|i]; simplify_eq/=.
           ++ left. by rewrite lookup_set_property_eq.
           ++ right. split; [done|]. exists i, key. split; [lia|done].
Qed.

(** C5, as the code has it.  Take the closure [c] that a call
    [computeOutlet path] attaches.  It holds [path] itself, and the
    pattern of its route matches [path].  When [c]'s promise is
    fulfilled while its session is still current, the reaction runs
    [exec] on that [path] again and publishes one element per loaded
    component.  Provided the match starts at the beginning of the path
    (as the expressions of [path-to-regexp] do) and every capture has a
    key: the matched text followed by the remainder is [path];
    [params] holds the [i]-th capture under the [i]-th key name
    whenever no later key that received a capture has the same name (a
    later capture replaces an earlier one of the same name), and
    nothing under the names of no key; and every outlet is
    [providePath] of the remainder around the component created with
    [params], that is a [PathProvider] whose child context carries the
    remainder as it is.  (Nothing is said of a key named
    [__proto__].) *)
Theorem extraction_prefix_remainder (path : string)
    (this this' : RouteOutlet Component) (c : Closure Component) :
  computeOutlet path this = (this', Normal) ->
  pending this' = pending this ++ [c] ->
  c_path c = path /\
  c_zoneID c = currentZoneID this' /\
  exists matched matches,
    exec (pathRegExp (c_routeHandler c)) path = Some (matched, matches) /\
    forall (components : gmap string Component) (later : RouteOutlet Component),
      c_zoneID c = currentZoneID later ->
      String.prefix matched path = true ->
      (length matches <= length (keys (pathRegExp (c_routeHandler c))))%nat ->
      exists params pathRest,
        react c (Fulfilled components) later
          = (setState (make_outlets pathRest params components) later, Normal) /\
        matched +:+ pathRest = path /\
        (forall i key v,
            keys (pathRegExp (c_routeHandler c)) !! i = Some key ->
            matches !! i = Some v ->
            name key <> "__proto__" ->
            (forall j key', (i < j)%nat -> (j < length matches)%nat ->
                            keys (pathRegExp (c_routeHandler c)) !! j = Some key' ->
                            name key' <> name key) ->
            params !! name key = Some v) /\
        (forall n, n ∉ name <$> keys (pathRegExp (c_routeHandler c)) ->
                   params !! n = None) /\
        (forall key,
            make_outlets pathRest params components !! key =
            (fun type => providePath pathRest (ComponentElement type params))
              <$> components !! key) /\
        (forall element : ReactElement Component,
            exists props,
              providePath pathRest element = PathProviderElement props element /\
              PathProvider.getChildContext props = {| PathProvider.path := pathRest |}).
Proof.
  unfold computeOutlet.
  destruct (find _ _) as [h|] eqn:Hfind; simpl.
  2:{ intros [= <-] Hp. simpl in Hp. apply (f_equal length) in Hp.
      rewrite length_app in Hp. simpl in Hp. lia. }
  destruct (getComponents h (now this)) as [promise|e] eqn:Hget; simpl; [|discriminate].
  intros [= <-] Hp. simpl in Hp. apply app_inv_head in Hp. injection Hp as <-. simpl.
  split; [done|]. split; [done|].
  apply find_some in Hfind as [_ Htest]. unfold test in Htest.
  destruct (exec (pathRegExp h) path) as [[matched matches]|] eqn:Hexec; [|discriminate].
  exists matched, matches. split; [done|].
  intros components later Hcur Hpre Hlen.
  destruct (assign_params_spec (keys (pathRegExp h)) matches ∅ Hlen)
    as (params & Hparams & Hother).
  destruct (assign_params_last _ _ _ _ Hparams) as (_ & _ & Hnth & _).
  exists params, (slice (String.length matched) path).
  unfold react, onFulfilled; simpl. rewrite Hcur, Z.eqb_refl; simpl.
  rewrite Hexec, Hparams. split; [done|]. split; [by apply prefix_slice|].
  split; [exact Hnth|]. split; [|split].
  - intros n Hn. by rewrite (Hother n Hn).
  - intros key. unfold make_outlets. by rewrite lookup_fmap.
  - intros element. by eexists.
Qed.

(** ** Sessions *)

Lemma computeOutlet_currentZoneID (path : string) (this : RouteOutlet Component) :
  currentZoneID (fst (computeOutlet path this)) = number_succ (currentZoneID this).
Proof.
  unfold computeOutlet. destruct (find _ _) as [h|]; simpl; [|done].
  by destruct (getComponents h (now this)).
Qed.

(** A call attaches at most one closure, at the end of the pending ones,
    and that closure carries the identifier the call made current. *)
Lemma computeOutlet_pending (path : string) (this : RouteOutlet Component) :
  pending (fst (computeOutlet path this)) = pending this \/
  exists c,
    pending (fst (computeOutlet path this)) = pending this ++ [c] /\
    c_zoneID c = currentZoneID (fst (computeOutlet path this)) /\
    c_path c = path.
Proof.
  unfold computeOutlet. destruct (find _ _) as [h|]; simpl; [|by left].
  destruct (getComponents h (now this)); simpl; [|by left].
  right. eexists. split; [reflexivity|]. by simpl.
Qed.

(** The counter never goes down. *)
Lemma step_currentZoneID_mono ev (this this' : RouteOutlet Component) :
  step ev this = Some this' -> currentZoneID this <= currentZoneID this'.
Proof.
  destruct ev as [path| |i]; simpl.
  - intros [= <-]. rewrite computeOutlet_currentZoneID. apply number_succ_ge.
  - intros [= <-]. simpl. lia.
  - destruct (pending this !! i) as [c|]; [|done].
    destruct (c_promise c) as [at_ o|]; [|done].
    destruct (at_ <=? now this)%nat; [|done].
    intros [= <-]. rewrite react_currentZoneID. simpl. lia.
Qed.

Lemma run_currentZoneID_mono evs (this this' : RouteOutlet Component) :
  run evs this = Some this' -> currentZoneID this <= currentZoneID this'.
Proof.
  revert this. induction evs as [|ev evs IH]; intros this; simpl.
  - intros [= <-]. lia.
  - destruct (step ev this) as [mid|] eqn:Hstep; [|done].
    intros Hrun. apply step_currentZoneID_mono in Hstep. apply IH in Hrun. lia.
Qed.

(** C1. Take two calls of [computeOutlet] on one instance, the first
    with [p1], the second with [p2], with any events before, between and
    after them, the second made while the counter is below [2^53].
    Each call advances the counter by one, so the identifier of the
    second call is strictly greater than that of the first, and the
    closure a call attaches carries the identifier the call has just
    made current.  A fulfilled promise of a closure whose identifier is
    not the current one changes nothing at all.  Hence, once [p2] has
    been requested, the reactions of the closure attached for [p1] leave
    the outlet mapping as it is, whenever they run. *)
Theorem session_currency (this a b d e : RouteOutlet Component)
    (p1 p2 : string) (o1 o2 : Outcome) (evs1 evs2 : list Event) :
  computeOutlet p1 this = (a, o1) ->
  run evs1 a = Some b ->
  currentZoneID b < MAX_EXACT ->
  computeOutlet p2 b = (d, o2) ->
  run evs2 d = Some e ->
  (currentZoneID a = currentZoneID this + 1 /\
   currentZoneID d = currentZoneID b + 1 /\
   currentZoneID this < currentZoneID a /\
   currentZoneID a < currentZoneID d)
  /\ (pending a = pending this \/
      exists c, pending a = pending this ++ [c] /\
                c_zoneID c = currentZoneID a /\ c_path c = p1)
  /\ (pending d = pending b \/
      exists c, pending d = pending b ++ [c] /\
                c_zoneID c = currentZoneID d /\ c_path c = p2)
  /\ (forall (c : Closure Component) components (st : RouteOutlet Component),
         c_zoneID c <> currentZoneID st ->
         react c (Fulfilled components) st = (st, Normal))
  /\ (forall i c e',
         pending e !! i = Some c ->
         c_zoneID c = currentZoneID a ->
         step (Settle i) e = Some e' ->
         outlets e' = outlets e).
Proof.
  intros Ha Hab Hb Hd Hde.
  pose proof (computeOutlet_currentZoneID p1 this) as Za. rewrite Ha in Za. simpl in Za.
  pose proof (computeOutlet_currentZoneID p2 b) as Zd. rewrite Hd in Zd. simpl in Zd.
  pose proof (run_currentZoneID_mono _ _ _ Hab) as Mab.
  pose proof (run_currentZoneID_mono _ _ _ Hde) as Mde.
  pose proof (number_succ_ge (currentZoneID this)) as Mta. rewrite <- Za in Mta.
  rewrite (number_succ_exact _ Hb) in Zd.
  rewrite number_succ_exact in Za by lia.
  split; [lia|]. split.
  { pose proof (computeOutlet_pending p1 this) as H. by rewrite Ha in H. }
  split.
  { pose proof (computeOutlet_pending p2 b) as H. by rewrite Hd in H. }
  split.
  - intros c components st Hne. apply Z.eqb_neq in Hne.
    unfold react, onFulfilled. by rewrite Hne.
  - intros i c e' Hi Hz. simpl. rewrite Hi.
    destruct (c_promise c) as [at_ o|]; [|done].
    destruct (at_ <=? now e)%nat; [|done].
    intros [= <-].
    destruct (react_stale c o (set_pending (delete i (pending e)) e)) as [Ho _].
    + simpl. lia.
    + by rewrite Ho.
Qed.

(** ** Multi-outlet routes *)

(** [call_thunks] returns one promise per key, each the resolved result
    of that key's thunk. *)
Lemma call_thunks_spec (now : Instant) (thunks : gmap string (Thunk Component))
    (ks : list string) (ps : list (Promise.t Component)) :
  call_thunks now thunks ks = Returns ps ->
  Forall2 (fun key p => exists thunk x,
               thunks !! key = Some thunk /\ thunk now = Returns x /\
               p = Promise.resolve now x) ks ps.
Proof.
  revert ps. induction ks as [|key ks IH]; intros ps; simpl.
  - intros [= <-]. constructor.
  - destruct (thunks !! key) as [thunk|] eqn:Hk; [|done].
    destruct (thunk now) as [x|] eqn:Hx; [|done].
    destruct (call_thunks now thunks ks) as [ps'|]; [|done].
    intros [= <-]. constructor; [|by apply IH].
    by exists thunk, x.
Qed.

(** It returns whenever every thunk does. *)
Lemma call_thunks_total (now : Instant) (thunks : gmap string (Thunk Component))
    (ks : list string) :
  (forall key, key ∈ ks -> exists thunk x,
        thunks !! key = Some thunk /\ thunk now = Returns x) ->
  exists ps, call_thunks now thunks ks = Returns ps.
Proof.
  induction ks as [|key ks IH]; intros H; simpl; [by eexists|].
  destruct (H key) as (thunk & x & -> & ->); [by left|].
  destruct IH as [ps ->]; [|by eexists].
  intros k Hk. apply H. by right.
Qed.

Lemma all_fulfilled_spec {A} (now : Instant) (ps : list (Promise.t A)) t vs :
  all_fulfilled now ps = Some (t, vs) ->
  (now <= t)%nat /\
  Forall2 (fun p v => exists tk, p = Settles tk (Fulfilled v) /\ (tk <= t)%nat) ps vs.
Proof.
  revert t vs. induction ps as [|p ps IH]; intros t vs; simpl.
  - intros [= <- <-]. split; [lia|constructor].
  - destruct p as [tk [v|e]|]; [|done|done].
    destruct (all_fulfilled now ps) as [[t' vs']|]; [|done].
    intros [= <- <-]. destruct (IH t' vs' eq_refl) as [Hnow Hall].
    split; [lia|]. constructor; [exists tk; split; [done|lia]|].
    eapply Forall2_impl; [exact Hall|].
    intros p w (tk' & -> & Hle). exists tk'. split; [done|lia].
Qed.


(** [fill_componentsMap] leaves other keys and [__proto__] alone and,
    for distinct keys, stores the [i]-th component under the [i]-th
    key. *)
Lemma fill_componentsMap_spec (ks : list string) (vs : list Component)
    (acc : gmap string Component) :
  (forall k, k ∉ ks -> fill_componentsMap ks vs acc !! k = acc !! k) /\
  fill_componentsMap ks vs acc !! "__proto__" = acc !! "__proto__" /\
  (NoDup ks ->
   forall i key v, ks !! i = Some key -> vs !! i = Some v -> key <> "__proto__" ->
                   fill_componentsMap ks vs acc !! key = Some v).
Proof.
  revert vs acc. induction ks as [|k ks IH]; intros vs acc; simpl.
  - split; [done|]. split; [done|]. intros _ i key v Hi. by destruct i.
  - destruct vs as [|v0 vs].
    { split; [done|]. split; [done|]. intros _ i key v _ Hv. by destruct i. }
    destruct (IH vs (set_property k v0 acc)) as (Hother & Hproto & Hnth).
    split; [|split].
    + intros n Hn. apply not_elem_of_cons in Hn as [Hne Hn].
      rewrite (Hother n Hn). by apply lookup_set_property_ne.
    + rewrite Hproto. apply lookup_set_property_proto.
    + intros Hnd. apply NoDup_cons in Hnd as [Hk Hnd].
      intros [|i] key v Hi Hv Hne; simplify_eq/=.
      * rewrite (Hother _ Hk). by apply lookup_set_property_eq.
      * by apply (Hnth Hnd i).
Qed.

Lemma Object_keys_elem {V} (o : gmap string V) (key : string) :
  key ∈ Object_keys o <-> is_Some (o !! key).
Proof.
  unfold Object_keys. rewrite list_elem_of_fmap. split.
  - intros ([k v] & -> & Hin). apply elem_of_map_to_list in Hin. by exists v.
  - intros [v Hv]. exists (key, v). split; [done|]. by apply elem_of_map_to_list.
Qed.

Lemma Object_keys_NoDup {V} (o : gmap string V) : NoDup (Object_keys o).
Proof. apply NoDup_fst_map_to_list. Qed.

Lemma all_of_fulfilled {A} (now : Instant) (ps : list (Promise.t A)) :
  Forall (fun p => exists tk v, p = Settles tk (Fulfilled v)) ps ->
  exists t vs, Promise.all now ps = Settles t (Fulfilled vs).
Proof.
  intros H. unfold Promise.all.
  assert (first_rejection ps = None /\ exists r, all_fulfilled now ps = Some r) as [-> [[t vs] ->]].
  { induction H as [|p ps (tk & v & ->) _ [IH1 [[t vs] IH2]]]; simpl.
    - split; [done|by eexists].
    - rewrite IH1, IH2. split; [done|by eexists]. }
  by exists t, vs.
Qed.

(** The object handed to [resolve] has no [then] entry when the route
    has no [then] key. *)
Lemma fill_no_then (thunks : gmap string (Thunk Component)) (vs : list Component) :
  thunks !! "then" = None ->
  fill_componentsMap (Object_keys thunks) vs ∅ !! "then" = None.
Proof.
  intros Hthen.
  destruct (fill_componentsMap_spec (Object_keys thunks) vs ∅) as (Hother & _).
  rewrite Hother; [done|].
  intros Hin. apply Object_keys_elem in Hin as [? Hin]. unfold Thunk in *. congruence.
Qed.

(** [resolve] fulfils with the object it is given only when the object
    has no [then] entry, and then at once. *)
Lemma resolve_componentsMap_fulfilled (at_ t : Instant) (o m : gmap string Component) :
  resolve_componentsMap at_ o = Settles t (Fulfilled m) <->
  o !! "then" = None /\ t = at_ /\ m = o.
Proof.
  unfold resolve_componentsMap. destruct (o !! "then") as [then_|]; simpl.
  - destruct (call_as_function then_); split; try done; by intros [? _].
  - split; [by intros [= -> ->]|by intros (_ & -> & ->)].
Qed.

(** What the promise of a multi-outlet route says about its keys when it
    is fulfilled. *)
Lemma named_fulfilled (thunks : gmap string (Thunk Component)) (now : Instant) t m :
  getComponents_of (Named thunks) now = Returns (Settles t (Fulfilled m)) ->
  thunks !! "then" = None /\
  dom m = dom thunks ∖ {[ "__proto__" ]} /\
  forall key thunk,
    thunks !! key = Some thunk ->
    exists x tk view,
      thunk now = Returns x /\
      Promise.resolve now x = Settles tk (Fulfilled view) /\
      (tk <= t)%nat /\
      (key <> "__proto__" -> m !! key = Some view).
Proof.
  unfold getComponents_of.
  destruct (call_thunks now thunks (Object_keys thunks)) as [ps|] eqn:Hc; [|done].
  intros [= Hthen]. unfold Promise.and_then, Promise.all in Hthen.
  destruct (first_rejection ps) as [[? ?]|]; [done|].
  destruct (all_fulfilled now ps) as [[t' vs]|] eqn:Haf; [|done].
  apply resolve_componentsMap_fulfilled in Hthen as (Hnothen & -> & ->).
  apply call_thunks_spec in Hc. apply all_fulfilled_spec in Haf as [_ Haf].
  destruct (fill_componentsMap_spec (Object_keys thunks) vs ∅) as (Hother & Hproto & Hnth).
  specialize (Hnth (Object_keys_NoDup thunks)).
  assert (forall key thunk, thunks !! key = Some thunk ->
            exists x tk view, thunk now = Returns x /\
              Promise.resolve now x = Settles tk (Fulfilled view) /\ (tk <= t')%nat /\
              (key <> "__proto__" ->
               fill_componentsMap (Object_keys thunks) vs ∅ !! key = Some view)) as Hkeys.
  { intros key thunk Hk.
    assert (key ∈ Object_keys thunks) as Hin by (apply Object_keys_elem; eauto).
    apply list_elem_of_lookup in Hin as [i Hi].
    destruct (Forall2_lookup_l _ _ _ _ _ Hc Hi) as (p & Hp & thunk' & x & Hk' & Hx & ->).
    destruct (Forall2_lookup_l _ _ _ _ _ Haf Hp) as (view & Hv & tk & Hres & Hle).
    rewrite Hk in Hk'. injection Hk' as <-.
    exists x, tk, view. repeat split; auto. intros Hne. by apply (Hnth i). }
  split; [|split; [|exact Hkeys]].
  - destruct (thunks !! "then") as [thunk|] eqn:Hk; [|done].
    destruct (Hkeys "then" thunk Hk) as (? & ? & view & _ & _ & _ & Hv).
    rewrite Hv in Hnothen; done.
  - apply set_eq. intros key.
    rewrite elem_of_difference, !elem_of_dom, not_elem_of_singleton. split.
    + intros Hm. split.
      * apply Object_keys_elem.
        destruct (decide (key ∈ Object_keys thunks)) as [|Hn]; [done|].
        rewrite (Hother key Hn), lookup_empty in Hm. by destruct Hm.
      * intros ->. rewrite Hproto, lookup_empty in Hm. by destruct Hm.
    + intros [[thunk Hk] Hne].
      destruct (Hkeys key thunk Hk) as (? & ? & view & _ & _ & _ & Hv).
      rewrite (Hv Hne). by eexists.
Qed.


(** The promise exists whenever every thunk returns, and, for a route
    without a [then] key, it is fulfilled whenever every thunk's result
    is. *)
Lemma named_total (thunks : gmap string (Thunk Component)) (now : Instant) :
  ((forall key thunk, thunks !! key = Some thunk -> exists x, thunk now = Returns x) ->
   exists p, getComponents_of (Named thunks) now = Returns p) /\
  (thunks !! "then" = None ->
   (forall key thunk, thunks !! key = Some thunk ->
      exists x tk view, thunk now = Returns x /\
                        Promise.resolve now x = Settles tk (Fulfilled view)) ->
   exists t m, getComponents_of (Named thunks) now = Returns (Settles t (Fulfilled m))).
Proof.
  assert (forall (Q : IntoPromise Component -> Prop),
             (forall key thunk, thunks !! key = Some thunk ->
                                exists x, thunk now = Returns x /\ Q x) ->
             exists ps, call_thunks now thunks (Object_keys thunks) = Returns ps /\
                        Forall (fun p => exists x, Q x /\ p = Promise.resolve now x) ps) as Hcall.
  { intros Q H.
    destruct (call_thunks_total now thunks (Object_keys thunks)) as [ps Hps].
    - intros key Hin. apply Object_keys_elem in Hin as [thunk Hk].
      destruct (H key thunk Hk) as (x & Hx & _). by exists thunk, x.
    - exists ps. split; [done|]. apply call_thunks_spec in Hps.
      apply Forall_lookup_2. intros i p Hp.
      destruct (Forall2_lookup_r _ _ _ _ _ Hps Hp) as (key & _ & thunk & x & Hk & Hx & ->).
      destruct (H key thunk Hk) as (x' & Hx' & HQ).
      rewrite Hx in Hx'. injection Hx' as <-. by exists x. }
  split.
  - intros H. destruct (Hcall (fun _ => True)) as (ps & Hps & _).
    + intros key thunk Hk. destruct (H key thunk Hk) as [x Hx]. by exists x.
    + unfold getComponents_of. rewrite Hps. by eexists.
  - intros Hthen H.
    destruct (Hcall (fun x => exists tk view,
                         Promise.resolve now x = Settles tk (Fulfilled view)))
      as (ps & Hps & Hall).
    + intros key thunk Hk. destruct (H key thunk Hk) as (x & tk & view & Hx & Hres).
      exists x. split; [done|]. by exists tk, view.
    + destruct (all_of_fulfilled now ps) as (t & vs & Hfull).
      * eapply Forall_impl; [exact Hall|].
        intros p (x & (tk & view & Hres) & ->). by exists tk, view.
      * unfold getComponents_of. rewrite Hps, Hfull. simpl.
        unfold resolve_componentsMap. rewrite (fill_no_then thunks vs Hthen).
        by eexists _, _.
Qed.


End Properties.

(** * Match selection in [computeOutlet] *)

Section OrderedSelection.

Context {Component : Type} {callable : Callable Component}.
Variable pathToRegexp : string -> bool -> PathRegExp.

(** [find] over the compiled table is [find] over the user's table. *)
Lemma find_routeHandlers (path : string) (table : list (UserRouteHandler Component)) :
  find (fun h => test (pathRegExp h) path) (routeHandlers pathToRegexp table) =
  toRouteHandler pathToRegexp <$>
    head (List.filter (fun u => test (pathRegExp (toRouteHandler pathToRegexp u)) path) table).
Proof.
  unfold routeHandlers. induction table as [|u table IH]; [done|].
  cbn [map find List.filter].
  destruct (test (pathRegExp (toRouteHandler pathToRegexp u)) path); [done|exact IH].
Qed.

(** C2.  [computeOutlet path] goes on with the entry of the compiled
    table at the lowest index whose pattern matches [path], whatever
    matches further down: it calls that entry's [getComponents] and
    attaches the closure of that entry under the new session
    identifier (or lets the exception of [getComponents] through).
    Conversely the entry of the closure a call attaches matches [path]
    and no entry above it does.  Hence the call does the same on any
    other table whose entries matching [path] are the same in the same
    order, in particular on one that has the entries that do not match
    in other places. *)
Theorem ordered_match_selection (userRouteHandlers : list (UserRouteHandler Component))
    (path : string) (this : RouteOutlet Component) :
  (forall i h,
      routeHandlers pathToRegexp userRouteHandlers !! i = Some h ->
      test (pathRegExp h) path = true ->
      (forall j h', (j < i)%nat ->
                    routeHandlers pathToRegexp userRouteHandlers !! j = Some h' ->
                    test (pathRegExp h') path = false) ->
      computeOutlet pathToRegexp userRouteHandlers path this =
        let zoneID := number_succ (currentZoneID this) in
        match getComponents h (now this) with
        | Returns promise =>
            (set_pending
               (pending this ++
                  [{| c_zoneID := zoneID; c_path := path;
                      c_routeHandler := h; c_promise := promise |}])
               (set_currentZoneID zoneID this),
             Normal)
        | Throws e => (set_currentZoneID zoneID this, Abrupt e)
        end)
  /\ (forall this' c,
         computeOutlet pathToRegexp userRouteHandlers path this = (this', Normal) ->
         pending this' = pending this ++ [c] ->
         exists i,
           routeHandlers pathToRegexp userRouteHandlers !! i = Some (c_routeHandler c) /\
           test (pathRegExp (c_routeHandler c)) path = true /\
           forall j h', (j < i)%nat ->
                        routeHandlers pathToRegexp userRouteHandlers !! j = Some h' ->
                        test (pathRegExp h') path = false)
  /\ (forall others : list (UserRouteHandler Component),
         List.filter (fun u => test (pathRegExp (toRouteHandler pathToRegexp u)) path) others =
         List.filter (fun u => test (pathRegExp (toRouteHandler pathToRegexp u)) path)
                     userRouteHandlers ->
         computeOutlet pathToRegexp others path this =
         computeOutlet pathToRegexp userRouteHandlers path this).
Proof.
  split; [|split].
  - intros i h Hi Hm Hlow.
    assert (find (fun h => test (pathRegExp h) path)
                 (routeHandlers pathToRegexp userRouteHandlers) = Some h) as Hfind.
    { apply find_lowest_index. by exists i. }
    unfold computeOutlet. rewrite Hfind. simpl.
    by destruct (getComponents h (now this)).
  - intros this' c. unfold computeOutlet.
    destruct (find _ _) as [h|] eqn:Hfind; simpl.
    2:{ intros [= <-] Hp. simpl in Hp. apply (f_equal length) in Hp.
        rewrite length_app in Hp. simpl in Hp. lia. }
    destruct (getComponents h (now this)) as [promise|e]; simpl; [|discriminate].
    intros [= <-] Hp. simpl in Hp. apply app_inv_head in Hp. injection Hp as <-. simpl.
    by apply find_lowest_index in Hfind.
  - intros others Hsame. unfold computeOutlet.
    by rewrite !find_routeHandlers, Hsame.
Qed.

End OrderedSelection.

(** * The properties on the tables of the test suite *)

Module Checks.

Import Examples.

Abbreviation P := Segments.pathToRegexp.

(** ** The expectations of the test suite, on the model *)

(** "withRoutes will do basic routing": ["/"] shows nothing, ["/a/b/c"]
    shows [A] and hands ["/b/c"] down. *)
Example basic_routing :
  outlets <$> run P basic [Call "/"] (initial 0) = Some ∅ /\
  outlets <$> run P basic [Call "/a/b/c"; Settle 0] (initial 0)
    = Some {[ "default" := providePath "/b/c" (ComponentElement "A" ∅) ]}.
Proof. split; vm_compute; reflexivity. Qed.

(** "withRoutes will allow for not found routes": ["/c"] shows [B]. *)
Example not_found_routing :
  outlets <$> run P not_found [Call "/c"; Settle 0] (initial 0)
    = Some {[ "default" := providePath "" (ComponentElement "B" {[ "0" := Some "c" ]}) ]}.
Proof. vm_compute; reflexivity. Qed.

(** "withRoutes will pass down path params" *)
Example params_routing :
  outlets <$> run P with_params [Call "/4/2"; Settle 0] (initial 0)
    = Some {[ "default" :=
                providePath "" (ComponentElement "A"
                                  (<["a" := Some "4"]> {[ "b" := Some "2" ]})) ]} /\
  outlets <$> run P with_params [Call "/a"] (initial 0) = Some ∅.
Proof. split; vm_compute; reflexivity. Qed.

(** "withRoutes will allow named component handlers" *)
Example named_routing :
  outlets <$> run P named [Call "/ab/cd"; Settle 0] (initial 0)
    = Some (<["one" := providePath "/cd" (ComponentElement "A" ∅)]>
              {[ "two" := providePath "/cd" (ComponentElement "B" ∅) ]}).
Proof. vm_compute; reflexivity. Qed.

(** Reactions do not run before their promise settles. *)
Example not_settled_yet :
  run P slow_fast [Call "/x"; Tick; Settle 0] (initial 0) = None.
Proof. vm_compute; reflexivity. Qed.

(** ["/c"] goes on with the catch-all entry that precedes the entry for
    ["/c"], wherever the entry for ["/a"] stands. *)
Lemma ordered_match_selection_witness :
  computeOutlet P not_found_reordered "/c" (initial 0) =
  computeOutlet P not_found "/c" (initial 0) /\
  computeOutlet P not_found "/c" (initial 0) =
  (set_pending
     [{| c_zoneID := 1; c_path := "/c";
         c_routeHandler := toRouteHandler P (route "/*" (Single (sync "B")));
         c_promise := Settles 0%nat (Fulfilled {[ "default" := "B" ]}) |}]
     (set_currentZoneID 1 (initial 0)),
   Normal).
Proof.
  destruct (ordered_match_selection P not_found "/c" (initial 0))
    as (Hlowest & _ & Hsame).
  split.
  - apply Hsame. vm_compute. reflexivity.
  - rewrite (Hlowest 1%nat (toRouteHandler P (route "/*" (Single (sync "B"))))).
    + vm_compute. reflexivity.
    + reflexivity.
    + vm_compute. reflexivity.
    + intros [|j] h' Hj Hh'; [|lia]. injection Hh' as <-. vm_compute. reflexivity.
Defined.

(** ["/x"] is requested, then ["/y"]: the second identifier is the
    greater one, and when the slow loader of ["/x"] settles at last, the
    mapping published for ["/y"] stays. *)
Lemma session_currency_witness :
  currentZoneID after_x < currentZoneID after_y /\
  step P slow_fast (Settle 0) y_published = Some x_late /\
  outlets x_late = outlets y_published /\
  outlets x_late !! "default" =
    Some (providePath "" (ComponentElement "Y" ∅)).
Proof.
  destruct (session_currency P slow_fast (initial 0) after_x after_x after_y y_published
              "/x" "/y" Normal Normal [] [Tick; Settle 1; Tick; Tick; Tick; Tick])
    as ((_ & _ & _ & Hlt) & _ & _ & _ & Hstale);
    [reflexivity | reflexivity | reflexivity | reflexivity | reflexivity |].
  split; [exact Hlt|].
  assert (step P slow_fast (Settle 0) y_published = Some x_late) as Hstep by reflexivity.
  split; [exact Hstep|].
  assert (outlets x_late = outlets y_published) as Hsame.
  { eapply (Hstale 0%nat); [reflexivity | reflexivity | exact Hstep]. }
  split; [exact Hsame|]. rewrite Hsame. reflexivity.
Defined.

(** No entry of [slow_fast] matches ["/nowhere"]: the mapping published
    for ["/y"] is cleared at once, while a closure is still pending. *)
Lemma no_match_clears_outlets_witness :
  outlets y_published <> ∅ /\
  pending y_published <> [] /\
  exists this',
    computeOutlet P slow_fast "/nowhere" y_published = (this', Normal) /\
    outlets this' = ∅ /\
    pending this' = pending y_published.
Proof.
  split; [|split].
  - intros H. apply (f_equal (fun m => m !! "default")) in H. discriminate H.
  - discriminate.
  - destruct (no_match_clears_outlets P slow_fast "/nowhere" y_published)
      as (this' & Hc & Ho & _ & Hp & _).
    + intros h Hh. unfold routeHandlers, slow_fast in Hh. simpl in Hh.
      apply elem_of_cons in Hh as [->|Hh]; [reflexivity|].
      apply elem_of_cons in Hh as [->|Hh]; [reflexivity|].
      by apply not_elem_of_nil in Hh.
    + by exists this'.
Defined.

(** The index route: without [end], ["/"] must be matched in full, any
    other pattern need not. *)
Lemma end_defaults_to_root_only_witness :
  pathRegExp (toRouteHandler P (route "/" (Single (sync "C")))) = P "/" true /\
  pathRegExp (toRouteHandler P (route "/a" (Single (sync "A")))) = P "/a" false.
Proof.
  split.
  - destruct (end_defaults_to_root_only P (route "/" (Single (sync "C"))))
      as (Hre & _ & Hroot & _).
    rewrite Hre. by rewrite (proj2 (Hroot eq_refl) eq_refl).
  - destruct (end_defaults_to_root_only P (route "/a" (Single (sync "A"))))
      as (Hre & _ & _ & Hother).
    rewrite Hre. by rewrite (proj2 (Hother eq_refl) ltac:(discriminate)).
Defined.

(** [() => A] resolves to [{ default: A }]. *)
Lemma single_thunk_default_map_witness :
  getComponents (toRouteHandler P (route "/a" (Single (sync "A")))) 0
  = Returns (Settles 0 (Fulfilled {[ "default" := "A" ]})).
Proof.
  destruct (single_thunk_default_map P (route "/a" (Single (sync "A")))
              (sync "A") 0%nat (Raw "A") eq_refl eq_refl) as (p & -> & Hp & _).
  f_equal. by apply Hp.
Defined.

(** The composed component of [slow_fast] gets the element of ["/y"] as
    its children and under [outlets]. *)
Lemma render_offers_outlets_witness :
  children (render tt y_published) = Some (providePath "" (ComponentElement "Y" ∅)) /\
  outlets_prop (props (render tt y_published)) !! "default" =
    Some (providePath "" (ComponentElement "Y" ∅)).
Proof.
  destruct (render_offers_outlets tt y_published) as (_ & _ & Hkeys & Hchild & _).
  split.
  - by apply Hchild.
  - by rewrite Hkeys.
Defined.

(** The loader of ["/n"] is rejected with [undefined] while ["/n"] is
    current: nothing is reported, ["/y"] stays on display, and the
    reaction ends with the [TypeError]. *)
Lemma nullish_rejection_not_recovered_witness :
  exists this',
    step P rejecting_undefined (Settle 0) n_current = Some this' /\
    react n_current_closure (Rejected Nullish) (set_pending [] n_current)
      = (this', Abrupt TypeError) /\
    console this' = [] /\
    outlets this' = {[ "default" := providePath "" (ComponentElement "Y" ∅) ]}.
Proof.
  destruct (nullish_rejection_not_recovered P rejecting_undefined n_current 0%nat
              n_current_closure 0%nat)
    as (this' & Hstep & Hreact & Hconsole & Houtlets);
    [vm_compute; reflexivity | reflexivity | vm_compute; lia | vm_compute; reflexivity |].
  exists this'. split; [exact Hstep|]. split; [exact Hreact|].
  split; [rewrite Hconsole|rewrite Houtlets]; vm_compute; reflexivity.
Defined.

(** The same rejection after ["/y"] was requested: the console stays
    empty. *)
Lemma nullish_rejection_not_reported_witness :
  c_zoneID n_superseded_closure <> currentZoneID n_superseded /\
  exists this',
    step P rejecting_undefined (Settle 0) n_superseded = Some this' /\
    console this' = [].
Proof.
  split; [vm_compute; discriminate|].
  destruct (nullish_rejection_not_reported P rejecting_undefined n_superseded 0%nat
              n_superseded_closure 0%nat)
    as (this' & Hstep & _ & Hconsole & _);
    [vm_compute; reflexivity | reflexivity | vm_compute; lia |].
  exists this'. split; [exact Hstep|]. rewrite Hconsole. vm_compute; reflexivity.
Defined.

(** ["/:a/:b"] on ["/4/2/rest"]: the matched text is ["/4/2"], the
    remainder ["/rest"], and the captures go to [a] and [b]. *)
Lemma extraction_prefix_remainder_witness :
  exists params,
    react params_closure (Fulfilled {[ "default" := "A" ]})
      (fst (computeOutlet P with_params "/4/2/rest" (initial 0)))
    = (setState (make_outlets "/rest" params {[ "default" := "A" ]})
         (fst (computeOutlet P with_params "/4/2/rest" (initial 0))), Normal) /\
    params !! "a" = Some (Some "4") /\
    params !! "b" = Some (Some "2") /\
    params !! "c" = None.
Proof.
  destruct (extraction_prefix_remainder P with_params "/4/2/rest" (initial 0)
              (fst (computeOutlet P with_params "/4/2/rest" (initial 0)))
              params_closure eq_refl eq_refl)
    as (_ & _ & matched & matches & Hexec & Hreact).
  vm_compute in Hexec. injection Hexec as <- <-.
  destruct (Hreact {[ "default" := "A" ]}
              (fst (computeOutlet P with_params "/4/2/rest" (initial 0))))
    as (params & pathRest & Hr & Hrest & Hnth & Hother & _ & _).
  - reflexivity.
  - reflexivity.
  - simpl. lia.
  - cbv in Hrest. injection Hrest as ->.
    exists params. split; [exact Hr|]. split; [|split].
    + apply (Hnth 0%nat {| name := "a" |} (Some "4") eq_refl eq_refl); [discriminate|].
      intros [|[|j]] key' Hij Hj Hk'; simpl in Hj; [lia| |lia].
      injection Hk' as <-. discriminate.
    + apply (Hnth 1%nat {| name := "b" |} (Some "2") eq_refl eq_refl); [discriminate|].
      intros [|[|j]] key' Hij Hj Hk'; simpl in Hj; lia.
    + apply Hother. vm_compute. intros H.
      apply elem_of_cons in H as [H|H]; [discriminate H|].
      apply list_elem_of_singleton in H. discriminate H.
Defined.

(** C5 as stated fails.  The pattern ["/:a/:a"] matches ["/1/2"] with the
    captures ["1"] and ["2"], both for keys named [a].  The published
    [params] has ["2"] under [a]: the first parameter name does not map
    to the first capture. *)
Lemma extraction_duplicate_names :
  computeOutlet P same_name "/1/2" (initial 0)
    = (set_pending [same_name_closure] (set_currentZoneID 1 (initial 0)), Normal) /\
  exec (pathRegExp (c_routeHandler same_name_closure)) "/1/2"
    = Some ("/1/2", [Some "1"; Some "2"]) /\
  keys (pathRegExp (c_routeHandler same_name_closure)) = [{| name := "a" |}; {| name := "a" |}] /\
  exists params,
    react same_name_closure (Fulfilled {[ "default" := "A" ]})
      (fst (computeOutlet P same_name "/1/2" (initial 0)))
    = (setState (make_outlets "" params {[ "default" := "A" ]})
         (fst (computeOutlet P same_name "/1/2" (initial 0))), Normal) /\
    params !! "a" = Some (Some "2") /\
    params !! "a" <> Some (Some "1").
Proof.
  split; [vm_compute; reflexivity|].
  split; [vm_compute; reflexivity|].
  split; [vm_compute; reflexivity|].
  exists {[ "a" := Some "2" ]}.
  split; [vm_compute; reflexivity|].
  split; [vm_compute; reflexivity|].
  vm_compute. discriminate.
Qed.



End Checks.

(** * Further properties of the source *)

Section Further.

Context {Component : Type} {callable : Callable Component}.
Variable pathToRegexp : string -> bool -> PathRegExp.
Variable userRouteHandlers : list (UserRouteHandler Component).

Local Abbreviation computeOutlet := (computeOutlet pathToRegexp userRouteHandlers).
Local Abbreviation step := (step pathToRegexp userRouteHandlers).
Local Abbreviation run := (run pathToRegexp userRouteHandlers).
Local Abbreviation routeHandlers := (routeHandlers pathToRegexp userRouteHandlers).
Local Abbreviation toRouteHandler := (toRouteHandler pathToRegexp).

(** ** What a call and a reaction leave alone *)

Lemma react_pending (c : Closure Component) o (this : RouteOutlet Component) :
  pending (fst (react c o this)) = pending this.
Proof.
  unfold react, onFulfilled, onRejected.
  destruct o as [components|error]; simpl; repeat case_match; simplify_eq; by simpl.
Qed.

Lemma react_now (c : Closure Component) o (this : RouteOutlet Component) :
  now (fst (react c o this)) = now this.
Proof.
  unfold react, onFulfilled, onRejected.
  destruct o as [components|error]; simpl; repeat case_match; simplify_eq; by simpl.
Qed.

Lemma react_console (c : Closure Component) o (this : RouteOutlet Component) :
  console (fst (react c o this)) = console this \/
  exists stack, console (fst (react c o this)) = console this ++ [stack].
Proof.
  unfold react, onFulfilled, onRejected.
  destruct o as [components|error]; simpl; repeat case_match; simplify_eq; simpl;
    first [by left | right; by eexists].
Qed.

Lemma computeOutlet_console (path : string) (this : RouteOutlet Component) :
  console (fst (computeOutlet path this)) = console this.
Proof.
  unfold computeOutlet. destruct (find _ _) as [h|]; simpl; [|done].
  by destruct (getComponents h (now this)).
Qed.

Lemma computeOutlet_now (path : string) (this : RouteOutlet Component) :
  now (fst (computeOutlet path this)) = now this.
Proof.
  unfold computeOutlet. destruct (find _ _) as [h|]; simpl; [|done].
  by destruct (getComponents h (now this)).
Qed.

(** [assign_params] throws exactly when there are more captures than
    keys, and then it throws the [TypeError] of [keys[i].name]. *)
Lemma assign_params_throws (ks : list Key) (matches : list (option string))
    (acc : gmap string (option string)) :
  (forall e, assign_params ks matches acc = Throws e -> e = TypeError) /\
  ((exists e, assign_params ks matches acc = Throws e) <->
   (length ks < length matches)%nat).
Proof.
  revert ks acc. induction matches as [|m matches IH]; intros ks acc; simpl.
  - split; [done|]. split; [by intros [e ?]|lia].
  - destruct ks as [|k ks]; simpl.
    + split; [by intros e [= <-]|]. split; [lia|by eexists].
    + destruct (IH ks (set_property (name k) m acc)) as [IH1 IH2].
      split; [exact IH1|]. rewrite IH2. lia.
Qed.

(** X1. A reaction ends abruptly in one case only: the awaited promise
    was rejected with [null] or [undefined], and then the instance is
    left exactly as it was.  Everything else is contained.  A rejection
    with any other value reaches the [catch] reaction, which hands its
    [stack] to [console.error] and, for a current closure, empties the
    outlet mapping.  So does what the reaction to a fulfilled promise
    throws in its own code, which is a [TypeError] (the destructuring of
    a [null] result of [exec], or [keys[i].name] for a capture without
    a key) and can only be thrown for a current closure: its stack is
    reported and the outlet mapping emptied.  ([createElement] and
    [setState] are taken to return, as in a mounted component.) *)
Theorem reaction_contains_errors (c : Closure Component)
    (o : Promise.Settled (gmap string Component)) (this : RouteOutlet Component) :
  (snd (react c o this) = Normal <-> o <> Rejected Nullish) /\
  (forall e, snd (react c o this) = Abrupt e ->
             o = Rejected Nullish /\ e = TypeError /\ fst (react c o this) = this) /\
  (forall stack,
      o = Rejected (ErrorValue stack) ->
      react c o this =
        (if c_zoneID c =? currentZoneID this
         then setState ∅ (console_error stack this)
         else console_error stack this, Normal)) /\
  (forall components e,
      o = Fulfilled components ->
      onFulfilled c components this = Throws e ->
      c_zoneID c = currentZoneID this /\
      e = TypeError /\
      exists stack,
        stack_of TypeError = Returns stack /\
        react c o this = (setState ∅ (console_error stack this), Normal)) /\
  (forall components this',
      o = Fulfilled components ->
      onFulfilled c components this = Returns this' ->
      react c o this = (this', Normal) /\ console this' = console this).
Proof.
  assert (forall components e, onFulfilled c components this = Throws e ->
            c_zoneID c = currentZoneID this /\ e = TypeError) as Hthrows.
  { intros components e. unfold onFulfilled.
    destruct (c_zoneID c =? currentZoneID this) eqn:E; simpl; [|done].
    apply Z.eqb_eq in E.
    destruct (exec _ _) as [[matched matches]|]; simpl; [|by intros [= <-]].
    destruct (assign_params _ _ _) as [params|e'] eqn:Hp; simpl; [done|].
    intros [= <-]. by apply assign_params_throws in Hp as ->. }
  split; [|split; [|split; [|split]]].
  - unfold react. destruct o as [components|[|stack]]; simpl.
    + destruct (onFulfilled c components this) as [this'|e] eqn:Hf; simpl; [by split|].
      destruct (Hthrows components e Hf) as [Hcur ->]. unfold onRejected; simpl.
      by destruct (negb _).
    + split; [done|congruence].
    + unfold onRejected; simpl. by destruct (negb _).
  - intros e. unfold react. destruct o as [components|[|stack]]; simpl.
    + destruct (onFulfilled c components this) as [this'|e'] eqn:Hf; simpl; [done|].
      destruct (Hthrows components e' Hf) as [Hcur ->]. unfold onRejected; simpl.
      by destruct (negb _).
    + by intros [= <-].
    + unfold onRejected; simpl. by destruct (negb _).
  - intros stack ->. unfold react, onRejected; simpl.
    by destruct (c_zoneID c =? currentZoneID this).
  - intros components e -> Hf. destruct (Hthrows components e Hf) as [Hcur ->].
    split; [done|]. split; [done|]. eexists. split; [reflexivity|].
    unfold react. rewrite Hf. unfold onRejected; simpl.
    by rewrite Hcur, Z.eqb_refl.
  - intros components this' -> Hf. unfold react. rewrite Hf. split; [done|].
    unfold onFulfilled in Hf. repeat case_match; simplify_eq; done.
Qed.

(** X2. Whatever happens, a reaction leaves the outlet mapping in one
    of three states: as it was, empty, or holding one element for every
    key of the loaded components and for no other key.  The last case
    needs a fulfilled promise and a closure whose session is current. *)
Theorem reaction_publishes_all_or_nothing (c : Closure Component)
    (o : Promise.Settled (gmap string Component)) (this : RouteOutlet Component) :
  outlets (fst (react c o this)) = outlets this \/
  outlets (fst (react c o this)) = ∅ \/
  exists components matched matches params,
    o = Fulfilled components /\
    c_zoneID c = currentZoneID this /\
    exec (pathRegExp (c_routeHandler c)) (c_path c) = Some (matched, matches) /\
    outlets (fst (react c o this)) =
      make_outlets (slice (String.length matched) (c_path c)) params components /\
    dom (outlets (fst (react c o this))) = dom components.
Proof.
  unfold react, onFulfilled, onRejected.
  destruct o as [components|[|stack]]; simpl.
  - destruct (c_zoneID c =? currentZoneID this) eqn:E; simpl; [|by left].
    apply Z.eqb_eq in E.
    destruct (exec _ _) as [[matched matches]|] eqn:Hexec; simpl.
    + destruct (assign_params _ _ _) as [params|e] eqn:Hp; simpl.
      * right. right. exists components, matched, matches, params.
        repeat split; auto. unfold make_outlets. by rewrite dom_fmap_L.
      * apply assign_params_throws in Hp as ->. simpl. by right; left.
    + by right; left.
  - by left.
  - destruct (c_zoneID c =? currentZoneID this); simpl; [by right; left|by left].
Qed.

(** ** Captures and keys *)

(** X3. When [exec] yields more captures than the pattern has keys, the
    reaction of a current closure to a fulfilled promise publishes no
    element: reading [keys[i].name] throws, the [catch] reaction reports
    that [TypeError] and empties the outlet mapping. *)
Theorem surplus_captures_reported (c : Closure Component)
    (components : gmap string Component) (this : RouteOutlet Component)
    (matched : string) (matches : list (option string)) :
  c_zoneID c = currentZoneID this ->
  exec (pathRegExp (c_routeHandler c)) (c_path c) = Some (matched, matches) ->
  (length (keys (pathRegExp (c_routeHandler c))) < length matches)%nat ->
  exists this' stack,
    react c (Fulfilled components) this = (this', Normal) /\
    stack_of TypeError = Returns stack /\
    console this' = console this ++ [stack] /\
    outlets this' = ∅ /\
    currentZoneID this' = currentZoneID this /\
    pending this' = pending this.
Proof.
  intros Hcur Hexec Hlen.
  destruct (assign_params_throws (keys (pathRegExp (c_routeHandler c))) matches ∅)
    as [Htype Hiff].
  apply Hiff in Hlen as [e He]. pose proof (Htype e He) as ->.
  unfold react, onFulfilled, onRejected. rewrite Hcur, Z.eqb_refl. simpl.
  rewrite Hexec, He. simpl. rewrite Z.eqb_refl. simpl.
  eexists _, _. repeat split.
Qed.

(** X4. [params] is built capture by capture, so when two keys carry
    the same name the later capture replaces the earlier one: a capture
    is found under its key's name whenever no later key that received a
    capture has that name, unless the name is [__proto__], under which
    an assignment adds no entry.  [params] has an entry for exactly the
    names other than [__proto__] of the keys that received a capture. *)
Theorem last_capture_wins (ks : list Key) (matches : list (option string))
    (params : gmap string (option string)) :
  assign_params ks matches ∅ = Returns params ->
  (forall i key v,
      ks !! i = Some key -> matches !! i = Some v ->
      name key <> "__proto__" ->
      (forall j key', (i < j)%nat -> (j < length matches)%nat ->
                      ks !! j = Some key' -> name key' <> name key) ->
      params !! name key = Some v) /\
  params !! "__proto__" = None /\
  (forall n,
      is_Some (params !! n) <->
      n <> "__proto__" /\
      exists i key, (i < length matches)%nat /\ ks !! i = Some key /\ name key = n).
Proof.
  intros Hp. destruct (assign_params_last _ _ _ _ Hp) as (_ & Hproto & Hnth & Hdom).
  split; [exact Hnth|]. split; [by rewrite Hproto|].
  intros n. rewrite Hdom. rewrite lookup_empty.
  split; [|by right]. intros [[? ?]|H]; [done|exact H].
Qed.

(** ** The promise of a multi-outlet route, case by case *)

Lemma first_rejection_spec {A} (ps : list (Promise.t A)) :
  match first_rejection ps with
  | Some (t, e) =>
      Settles t (Rejected e) ∈ ps /\
      forall t' e', Settles t' (Rejected e') ∈ ps -> (t <= t')%nat
  | None => forall t e, Settles t (Rejected e) ∉ ps
  end.
Proof.
  induction ps as [|p ps IH]; simpl.
  - intros t e H. by apply not_elem_of_nil in H.
  - destruct p as [tp [v|ep]|]; destruct (first_rejection ps) as [[t e]|].
    + destruct IH as [Hin Hmin]. split; [by right|].
      intros t' e' H. apply elem_of_cons in H as [H|H]; [done|by apply (Hmin t' e')].
    + intros t e H. apply elem_of_cons in H as [H|H]; [done|by apply (IH t e)].
    + destruct IH as [Hin Hmin]. destruct (t <? tp)%nat eqn:E.
      * apply Nat.ltb_lt in E. split; [by right|].
        intros t' e' H. apply elem_of_cons in H as [[= <- <-]|H]; [lia|by apply (Hmin t' e')].
      * apply Nat.ltb_ge in E. split; [by left|].
        intros t' e' H. apply elem_of_cons in H as [[= <- <-]|H]; [lia|].
        specialize (Hmin t' e' H). lia.
    + split; [by left|].
      intros t' e' H. apply elem_of_cons in H as [[= <- <-]|H]; [lia|].
      by apply IH in H.
    + destruct IH as [Hin Hmin]. split; [by right|].
      intros t' e' H. apply elem_of_cons in H as [H|H]; [done|by apply (Hmin t' e')].
    + intros t e H. apply elem_of_cons in H as [H|H]; [done|by apply (IH t e)].
Qed.

Lemma all_fulfilled_exact {A} (now : Instant) (ps : list (Promise.t A)) t vs :
  all_fulfilled now ps = Some (t, vs) ->
  t = now \/ exists v, Settles t (Fulfilled v) ∈ ps.
Proof.
  revert t vs. induction ps as [|p ps IH]; intros t vs; simpl.
  - intros [= <- <-]. by left.
  - destruct p as [tk [v|e]|]; [|done|done].
    destruct (all_fulfilled now ps) as [[t' vs']|]; [|done].
    intros [= <- <-]. destruct (Nat.max_spec tk t') as [[_ ->]|[_ ->]].
    + destruct (IH t' vs' eq_refl) as [->|[w Hw]]; [by left|].
      right. exists w. by right.
    + right. exists v. by left.
Qed.

Lemma all_fulfilled_none {A} (now : Instant) (ps : list (Promise.t A)) :
  all_fulfilled now ps = None ->
  (forall t e, Settles t (Rejected e) ∉ ps) ->
  Forever ∈ ps.
Proof.
  induction ps as [|p ps IH]; simpl; [done|]. intros Hnone Hno.
  destruct p as [tk [v|e]|].
  - right. apply IH.
    + by destruct (all_fulfilled now ps) as [[? ?]|].
    + intros t e H. apply (Hno t e). by right.
  - exfalso. apply (Hno tk e). by left.
  - by left.
Qed.

(** The promises [call_thunks] returns are those of the keys, and of
    nothing else. *)
Lemma call_thunks_elem (now : Instant) (thunks : gmap string (Thunk Component))
    (ps : list (Promise.t Component)) (p : Promise.t Component) :
  call_thunks now thunks (Object_keys thunks) = Returns ps ->
  p ∈ ps <->
  exists key thunk x,
    thunks !! key = Some thunk /\ thunk now = Returns x /\ p = Promise.resolve now x.
Proof.
  intros Hc. apply call_thunks_spec in Hc. split.
  - intros Hin. apply list_elem_of_lookup in Hin as [i Hi].
    destruct (Forall2_lookup_r _ _ _ _ _ Hc Hi) as (key & _ & thunk & x & H).
    by exists key, thunk, x.
  - intros (key & thunk & x & Hk & Hx & ->).
    assert (key ∈ Object_keys thunks) as Hin by (apply Object_keys_elem; eauto).
    apply list_elem_of_lookup in Hin as [i Hi].
    destruct (Forall2_lookup_l _ _ _ _ _ Hc Hi) as (p & Hp & thunk' & x' & Hk' & Hx' & ->).
    rewrite Hk in Hk'. injection Hk' as <-. rewrite Hx in Hx'. injection Hx' as <-.
    by apply list_elem_of_lookup_2 in Hp.
Qed.

Lemma call_thunks_throws (now : Instant) (thunks : gmap string (Thunk Component))
    (ks : list string) (e : Reason) :
  (forall key, key ∈ ks -> is_Some (thunks !! key)) ->
  call_thunks now thunks ks = Throws e ->
  exists key thunk, key ∈ ks /\ thunks !! key = Some thunk /\ thunk now = Throws e.
Proof.
  induction ks as [|key ks IH]; intros Hks; cbn [call_thunks]; [done|].
  destruct (thunks !! key) as [thunk|] eqn:Hk.
  2:{ destruct (Hks key) as [thunk Hthunk]; [by left|].
      exfalso. unfold Thunk in *. congruence. }
  destruct (thunk now) as [x|e'] eqn:Hx.
  - destruct (call_thunks now thunks ks) as [ps|e'] eqn:Hc; [done|].
    intros [= ->]. destruct IH as (key' & thunk' & Hin & H); [|done|].
    + intros k Hin. apply Hks. by right.
    + exists key', thunk'. split; [by right|done].
  - intros [= ->]. exists key, thunk. split; [by left|done].
Qed.

Lemma named_throws (thunks : gmap string (Thunk Component)) (now : Instant) :
  (forall e, getComponents_of (Named thunks) now = Throws e ->
             exists key thunk, thunks !! key = Some thunk /\ thunk now = Throws e) /\
  ((exists key thunk e, thunks !! key = Some thunk /\ thunk now = Throws e) ->
   exists e, getComponents_of (Named thunks) now = Throws e).
Proof.
  split.
  - intros e. unfold getComponents_of.
    destruct (call_thunks now thunks (Object_keys thunks)) as [ps|e'] eqn:Hc; [done|].
    intros [= ->]. apply call_thunks_throws in Hc as (key & thunk & _ & H).
    + by exists key, thunk.
    + intros key. apply Object_keys_elem.
  - intros (key & thunk & e & Hk & Hx).
    destruct (getComponents_of (Named thunks) now) as [p|e'] eqn:Hg; [|by exists e'].
    exfalso. unfold getComponents_of in Hg.
    destruct (call_thunks now thunks (Object_keys thunks)) as [ps|] eqn:Hc; [|done].
    apply call_thunks_spec in Hc.
    assert (key ∈ Object_keys thunks) as Hin by (apply Object_keys_elem; eauto).
    apply list_elem_of_lookup in Hin as [i Hi].
    destruct (Forall2_lookup_l _ _ _ _ _ Hc Hi) as (q & _ & thunk' & x & Hk' & Hx' & _).
    congruence.
Qed.

(** X5. [getComponents()] of a multi-outlet route throws exactly when
    one of its thunks throws, and what it throws was thrown by one of
    them: the lookup [component[key]] cannot fail for the keys that
    [Object.keys] lists. *)
Theorem named_throws_iff_a_thunk_throws (thunks : gmap string (Thunk Component))
    (now : Instant) :
  ((exists e, getComponents_of (Named thunks) now = Throws e) <->
   (exists key thunk e, thunks !! key = Some thunk /\ thunk now = Throws e)) /\
  (forall e, getComponents_of (Named thunks) now = Throws e ->
             exists key thunk, thunks !! key = Some thunk /\ thunk now = Throws e).
Proof.
  destruct (named_throws thunks now) as [Hthrown Hthrows].
  split; [|exact Hthrown]. split; [|exact Hthrows].
  intros [e He]. destruct (Hthrown e He) as (key & thunk & H). by exists key, thunk, e.
Qed.


(** X7. The promise of a multi-outlet route without a key named [then]
    never settles exactly when every thunk returns, no key's result is
    rejected and the result of some key never settles: one loader that
    hangs keeps the whole route pending unless another one fails. *)
Theorem named_pending_forever (thunks : gmap string (Thunk Component)) (now : Instant) :
  thunks !! "then" = None ->
  getComponents_of (Named thunks) now = Returns Forever <->
  (forall key thunk, thunks !! key = Some thunk -> exists x, thunk now = Returns x) /\
  (forall key thunk x t e,
      thunks !! key = Some thunk -> thunk now = Returns x ->
      Promise.resolve now x <> Settles t (Rejected e)) /\
  (exists key thunk x,
      thunks !! key = Some thunk /\ thunk now = Returns x /\
      Promise.resolve now x = Forever).
Proof.
  intros Hnothen. split.
  - intros Hg. assert (Hg' := Hg). unfold getComponents_of in Hg.
    destruct (call_thunks now thunks (Object_keys thunks)) as [ps|] eqn:Hc; [|done].
    injection Hg as Hthen. unfold Promise.and_then, Promise.all in Hthen.
    pose proof (first_rejection_spec ps) as Hfirst.
    destruct (first_rejection ps) as [[t0 e0]|]; [done|].
    destruct (all_fulfilled now ps) as [[t' vs]|] eqn:Haf.
    { unfold resolve_componentsMap in Hthen.
      by rewrite (fill_no_then thunks vs Hnothen) in Hthen. }
    split; [|split].
    + intros key thunk Hk. destruct (thunk now) as [x|e] eqn:Hx; [by exists x|].
      destruct (proj2 (named_throws thunks now)) as [e' He'];
        [by exists key, thunk, e|]. congruence.
    + intros key thunk x t e Hk Hx Hres. apply (Hfirst t e).
      apply (call_thunks_elem _ _ _ _ Hc). exists key, thunk, x. by rewrite Hres.
    + apply all_fulfilled_none in Haf; [|exact Hfirst].
      apply (call_thunks_elem _ _ _ _ Hc) in Haf as (key & thunk & x & Hk & Hx & Hp).
      by exists key, thunk, x.
  - intros (Hret & Hnorej & key & thunk & x & Hk & Hx & Hres).
    destruct (proj1 (named_total thunks now) Hret) as [p Hp]. rewrite Hp. f_equal.
    unfold getComponents_of in Hp.
    destruct (call_thunks now thunks (Object_keys thunks)) as [ps|] eqn:Hc; [|done].
    injection Hp as <-. unfold Promise.and_then, Promise.all.
    pose proof (first_rejection_spec ps) as Hfirst.
    destruct (first_rejection ps) as [[t0 e0]|].
    + destruct Hfirst as [Hin _].
      apply (call_thunks_elem _ _ _ _ Hc) in Hin as (k & th & y & Hk' & Hy & Hq).
      exfalso. by apply (Hnorej k th y t0 e0).
    + destruct (all_fulfilled now ps) as [[t vs]|] eqn:Haf; [|done].
      apply all_fulfilled_spec in Haf as [_ Haf].
      assert (Forever ∈ ps) as Hin.
      { apply (call_thunks_elem _ _ _ _ Hc). exists key, thunk, x. by rewrite Hres. }
      apply list_elem_of_lookup in Hin as [i Hi].
      destruct (Forall2_lookup_l _ _ _ _ _ Haf Hi) as (v & _ & tk & Hbad & _). done.
Qed.

(** X8. When the promise of a multi-outlet route is fulfilled, it is
    fulfilled at the instant of the call or at the very instant the
    result of one of its keys is fulfilled: as no key is fulfilled later
    (C3), the route is ready as soon as its last loader is.  A route
    without keys is fulfilled at once, with no component. *)
Theorem named_fulfilled_with_last_key (thunks : gmap string (Thunk Component))
    (now : Instant) :
  (forall t m,
      getComponents_of (Named thunks) now = Returns (Settles t (Fulfilled m)) ->
      (now <= t)%nat /\
      (t = now \/
       exists key thunk x view,
         thunks !! key = Some thunk /\ thunk now = Returns x /\
         Promise.resolve now x = Settles t (Fulfilled view))) /\
  (thunks = ∅ ->
   getComponents_of (Named thunks) now = Returns (Settles now (Fulfilled ∅))).
Proof.
  split.
  - intros t m. unfold getComponents_of.
    destruct (call_thunks now thunks (Object_keys thunks)) as [ps|] eqn:Hc; [|done].
    intros [= Hthen]. unfold Promise.and_then, Promise.all in Hthen.
    destruct (first_rejection ps) as [[? ?]|]; [done|].
    destruct (all_fulfilled now ps) as [[t' vs]|] eqn:Haf; [|done].
    apply resolve_componentsMap_fulfilled in Hthen as (_ & -> & _).
    split; [by apply all_fulfilled_spec in Haf as [? _]|].
    apply all_fulfilled_exact in Haf as [->|[v Hin]]; [by left|]. right.
    apply (call_thunks_elem _ _ _ _ Hc) in Hin as (key & thunk & x & Hk & Hx & Hp).
    by exists key, thunk, x, v.
  - intros ->. unfold getComponents_of, Object_keys. by rewrite map_to_list_empty.
Qed.

(** ** Keys named [then] and [__proto__] *)



(** X24. The components a multi-outlet route is fulfilled with never
    include one under [__proto__]: a thunk under that key is called and
    awaited like the others, but the assignment
    [componentsMap['__proto__'] = ...] adds no entry, so the loaded
    components are those of the other keys of the route. *)
Theorem named_proto_key_dropped (thunks : gmap string (Thunk Component)) (now : Instant)
    (t : Instant) (m : gmap string Component) :
  getComponents_of (Named thunks) now = Returns (Settles t (Fulfilled m)) ->
  m !! "__proto__" = None /\
  dom m = dom thunks ∖ {[ "__proto__" ]} /\
  (forall thunk,
      thunks !! "__proto__" = Some thunk ->
      exists x tk view,
        thunk now = Returns x /\
        Promise.resolve now x = Settles tk (Fulfilled view) /\
        (tk <= t)%nat).
Proof.
  intros Hg. apply named_fulfilled in Hg as (_ & Hdom & Hkeys).
  split; [|split; [exact Hdom|]].
  - apply not_elem_of_dom. rewrite Hdom, elem_of_difference, not_elem_of_singleton.
    by intros [_ ?].
  - intros thunk Hk. destruct (Hkeys "__proto__" thunk Hk) as (x & tk & view & Hx & Hres & Hle & _).
    by exists x, tk, view.
Qed.

(** ** Invariants of a run *)

(** What holds of every pending closure: its identifier was allocated
    (between [1] and the counter), its route is the one [find] selects
    for its path, and its promise is what that route's
    [getComponents()] returned at some instant up to now. *)
Let closure_ok (st : RouteOutlet Component) (c : Closure Component) : Prop :=
  1 <= c_zoneID c <= currentZoneID st /\
  find (fun h => test (pathRegExp h) (c_path c)) routeHandlers = Some (c_routeHandler c) /\
  exists t, (t <= now st)%nat /\ getComponents (c_routeHandler c) t = Returns (c_promise c).

Let state_ok (st : RouteOutlet Component) : Prop :=
  0 <= currentZoneID st /\ Forall (closure_ok st) (pending st).

Lemma closure_ok_mono (st st' : RouteOutlet Component) (c : Closure Component) :
  currentZoneID st <= currentZoneID st' -> (now st <= now st')%nat ->
  closure_ok st c -> closure_ok st' c.
Proof.
  intros Hz Hn ((H1 & H2) & Hfind & t & Ht & Hget).
  split; [lia|]. split; [done|]. exists t. split; [lia|done].
Qed.

Lemma step_state_ok ev (st st' : RouteOutlet Component) :
  state_ok st -> step ev st = Some st' -> state_ok st'.
Proof.
  intros [Hz Hall]. destruct ev as [path| |i]; simpl.
  - intros [= <-]. pose proof (computeOutlet_currentZoneID pathToRegexp userRouteHandlers path st) as Hc.
    pose proof (number_succ_ge (currentZoneID st)) as Hge.
    assert (1 <= number_succ (currentZoneID st)) as Hpos.
    { unfold number_succ, MAX_EXACT. destruct (_ <? _) eqn:E; [lia|].
      apply Z.ltb_ge in E. lia. }
    split; [rewrite Hc; lia|].
    assert (Forall (closure_ok (fst (computeOutlet path st))) (pending st)) as Hold.
    { eapply Forall_impl; [exact Hall|]. intros c. apply closure_ok_mono.
      - rewrite Hc. lia.
      - by rewrite computeOutlet_now. }
    revert Hc Hold. unfold computeOutlet.
    destruct (find _ _) as [h|] eqn:Hfind; simpl; [|done].
    destruct (getComponents h (now st)) as [p|e] eqn:Hget; simpl; [|done].
    intros _ Hold. apply Forall_app. split; [exact Hold|].
    apply Forall_singleton. split; simpl; [lia|]. split; [done|].
    exists (now st). split; [lia|done].
  - intros [= <-]. split; [done|]. eapply Forall_impl; [exact Hall|].
    intros c. apply closure_ok_mono; simpl; lia.
  - destruct (pending st !! i) as [c|]; [|done].
    destruct (c_promise c) as [at_ o|]; [|done].
    destruct (at_ <=? now st)%nat; [|done].
    intros [= <-]. split.
    + by rewrite react_currentZoneID.
    + rewrite react_pending. simpl. apply Forall_delete.
      eapply Forall_impl; [exact Hall|]. intros c'. apply closure_ok_mono.
      * by rewrite react_currentZoneID.
      * by rewrite react_now.
Qed.

Lemma run_state_ok evs (st st' : RouteOutlet Component) :
  state_ok st -> run evs st = Some st' -> state_ok st'.
Proof.
  revert st. induction evs as [|ev evs IH]; intros st Hok; simpl.
  - by intros [= <-].
  - destruct (step ev st) as [mid|] eqn:Hstep; [|done].
    apply IH. by apply (step_state_ok ev st).
Qed.

(** X9. In every state an instance can reach from its initial one, each
    pending closure carries an identifier between [1] and the counter,
    belongs to the route that [find] selects for the closure's path,
    and waits for what that route's [getComponents()] returned.  In
    particular [exec] on the closure's path does not yield [null]: the
    cast in the reaction is safe, as the source says. *)
Theorem pending_closures_wellformed (t : Instant) (evs : list Event)
    (st : RouteOutlet Component) (i : nat) (c : Closure Component) :
  run evs (initial t) = Some st ->
  pending st !! i = Some c ->
  1 <= c_zoneID c <= currentZoneID st /\
  find (fun h => test (pathRegExp h) (c_path c)) routeHandlers = Some (c_routeHandler c) /\
  (exists u, u ∈ userRouteHandlers /\ c_routeHandler c = toRouteHandler u) /\
  (exists matched matches,
      exec (pathRegExp (c_routeHandler c)) (c_path c) = Some (matched, matches)) /\
  (exists t', (t' <= now st)%nat /\
              getComponents (c_routeHandler c) t' = Returns (c_promise c)).
Proof.
  intros Hrun Hi.
  assert (state_ok (initial t)) as Hinit by (split; [done|constructor]).
  destruct (run_state_ok _ _ _ Hinit Hrun) as [_ Hall].
  rewrite Forall_lookup in Hall. destruct (Hall i c Hi) as (Hid & Hfind & Hget).
  split; [done|]. split; [done|].
  apply find_some in Hfind as Hsome. destruct Hsome as [Hin Htest].
  split; [|split; [|done]].
  - unfold routeHandlers in Hin. apply in_map_iff in Hin as (u & Hu & Hin).
    exists u. split; [by apply list_elem_of_In|done].
  - unfold test in Htest.
    destruct (exec (pathRegExp (c_routeHandler c)) (c_path c)) as [[m ms]|]; [|done].
    by exists m, ms.
Qed.

(** While the counter is below [2^53], the identifiers of the pending
    closures grow along the list and none exceeds the counter. *)
Let ids_ok (st : RouteOutlet Component) : Prop :=
  currentZoneID st < MAX_EXACT ->
  StronglySorted Z.lt (c_zoneID <$> pending st) /\
  Forall (fun z => z <= currentZoneID st) (c_zoneID <$> pending st).

Lemma StronglySorted_delete {A} (R : relation A) (l : list A) (i : nat) :
  StronglySorted R l -> StronglySorted R (delete i l).
Proof.
  revert i. induction l as [|x l IH]; intros i Hs; [by destruct i|].
  apply StronglySorted_cons in Hs as [Hx Hs]. destruct i as [|i]; simpl; [done|].
  apply StronglySorted_cons. split; [by apply Forall_delete|by apply IH].
Qed.

Lemma StronglySorted_lookup_lt {A} (R : relation A) (l : list A) (i j : nat) (a b : A) :
  StronglySorted R l -> (i < j)%nat -> l !! i = Some a -> l !! j = Some b -> R a b.
Proof.
  intros Hs Hij Hi Hj. rewrite <- (take_drop j l) in Hs.
  apply (StronglySorted_app_1_elem_of R _ _ a b Hs).
  - apply list_elem_of_lookup. exists i. by rewrite lookup_take_lt.
  - apply list_elem_of_lookup. exists 0%nat. rewrite lookup_drop. by rewrite Nat.add_0_r.
Qed.

Lemma step_ids_ok ev (st st' : RouteOutlet Component) :
  ids_ok st -> step ev st = Some st' -> ids_ok st'.
Proof.
  intros Hok. destruct ev as [path| |i]; simpl.
  - intros [= <-] Hlt.
    pose proof (computeOutlet_currentZoneID pathToRegexp userRouteHandlers path st) as Hc.
    rewrite Hc in Hlt. pose proof (number_succ_ge (currentZoneID st)) as Hge.
    destruct Hok as [Hsorted Hle]; [lia|].
    rewrite number_succ_exact in Hc by lia. rewrite Hc.
    destruct (computeOutlet_pending pathToRegexp userRouteHandlers path st)
      as [->|(c & -> & Hid & _)].
    + split; [done|]. eapply Forall_impl; [exact Hle|]. simpl. intros z. lia.
    + rewrite Hc in Hid. rewrite fmap_app. simpl. split.
      * apply StronglySorted_app_2; [|done|repeat constructor].
        intros z1 z2 H1 H2. apply list_elem_of_singleton in H2 as ->.
        rewrite Forall_forall in Hle. specialize (Hle z1 H1). simpl in Hle. lia.
      * apply Forall_app. split.
        -- eapply Forall_impl; [exact Hle|]. simpl. intros z. lia.
        -- apply Forall_singleton. lia.
  - by intros [= <-].
  - destruct (pending st !! i) as [c|]; [|done].
    destruct (c_promise c) as [at_ o|]; [|done].
    destruct (at_ <=? now st)%nat; [|done].
    intros [= <-]. unfold ids_ok. rewrite react_currentZoneID, react_pending. simpl.
    intros Hlt. destruct (Hok Hlt) as [Hsorted Hle]. rewrite list_fmap_delete.
    split; [by apply StronglySorted_delete|by apply Forall_delete].
Qed.

Lemma run_ids_ok evs (st st' : RouteOutlet Component) :
  ids_ok st -> run evs st = Some st' -> ids_ok st'.
Proof.
  revert st. induction evs as [|ev evs IH]; intros st Hok; simpl.
  - by intros [= <-].
  - destruct (step ev st) as [mid|] eqn:Hstep; [|done].
    apply IH. by apply (step_ids_ok ev st).
Qed.

(** X10. As long as the counter is below [2^53], the pending closures
    of an instance carry strictly increasing identifiers, in the order
    in which they were attached.  So at most one of them is current,
    and it can only be the one attached last: every other pending
    closure is already superseded. *)
Theorem pending_sessions_increase (t : Instant) (evs : list Event)
    (st : RouteOutlet Component) :
  run evs (initial t) = Some st ->
  currentZoneID st < MAX_EXACT ->
  (forall i j ci cj,
      (i < j)%nat -> pending st !! i = Some ci -> pending st !! j = Some cj ->
      c_zoneID ci < c_zoneID cj) /\
  (forall i c,
      pending st !! i = Some c -> c_zoneID c = currentZoneID st ->
      S i = length (pending st)).
Proof.
  intros Hrun Hlt.
  assert (ids_ok (initial t)) as Hinit.
  { intros _. simpl. split; constructor. }
  destruct (run_ids_ok _ _ _ Hinit Hrun Hlt) as [Hsorted Hle].
  assert (forall i j ci cj,
             (i < j)%nat -> pending st !! i = Some ci -> pending st !! j = Some cj ->
             c_zoneID ci < c_zoneID cj) as Hincr.
  { intros i j ci cj Hij Hi Hj.
    apply (StronglySorted_lookup_lt Z.lt (c_zoneID <$> pending st) i j); auto.
    - by rewrite list_lookup_fmap, Hi.
    - by rewrite list_lookup_fmap, Hj. }
  split; [exact Hincr|].
  intros i c Hi Hcur.
  destruct (pending st !! S i) as [c'|] eqn:Hnext.
  - specialize (Hincr i (S i) c c' ltac:(lia) Hi Hnext).
    rewrite Forall_forall in Hle.
    assert (c_zoneID c' <= currentZoneID st).
    { apply Hle. apply list_elem_of_fmap. exists c'. split; [done|].
      by apply list_elem_of_lookup_2 in Hnext. }
    lia.
  - apply lookup_ge_None in Hnext. apply lookup_lt_Some in Hi. lia.
Qed.

(** X11. The counter counts the calls: after any run it stands at the
    number of [computeOutlet] calls made, added to where it started,
    and at [2^53] once that sum would pass it.  Reactions and the clock
    never move it. *)
Theorem counter_counts_calls (evs : list Event) (st st' : RouteOutlet Component) :
  run evs st = Some st' ->
  currentZoneID st <= MAX_EXACT ->
  currentZoneID st' = Z.min (currentZoneID st + Z.of_nat (calls evs)) MAX_EXACT.
Proof.
  revert st. induction evs as [|ev evs IH]; intros st; simpl.
  - intros [= <-] Hle. lia.
  - destruct (step ev st) as [mid|] eqn:Hstep; [|done]. intros Hrun Hle.
    destruct ev as [path| |i]; simpl in Hstep.
    + injection Hstep as <-.
      pose proof (computeOutlet_currentZoneID pathToRegexp userRouteHandlers path st) as Hc.
      rewrite (IH _ Hrun); rewrite Hc; unfold number_succ;
        destruct (currentZoneID st <? MAX_EXACT) eqn:E;
        [apply Z.ltb_lt in E|apply Z.ltb_ge in E|apply Z.ltb_lt in E|apply Z.ltb_ge in E];
        lia.
    + injection Hstep as <-. by rewrite (IH _ Hrun).
    + destruct (pending st !! i) as [c|]; [|done].
      destruct (c_promise c) as [at_ o|]; [|done].
      destruct (at_ <=? now st)%nat; [|done].
      injection Hstep as <-. rewrite (IH _ Hrun); rewrite react_currentZoneID; simpl; lia.
Qed.

(** X12. The console is only ever appended to: a run keeps every
    earlier report in place and adds at most one per reaction that ran;
    calls of [computeOutlet] and the clock add none. *)
Theorem console_append_only (evs : list Event) (st st' : RouteOutlet Component) :
  run evs st = Some st' ->
  exists reports,
    console st' = console st ++ reports /\
    (length reports <= settles evs)%nat.
Proof.
  revert st. induction evs as [|ev evs IH]; intros st; simpl.
  - intros [= <-]. exists []. by rewrite app_nil_r.
  - destruct (step ev st) as [mid|] eqn:Hstep; [|done]. intros Hrun.
    destruct (IH _ Hrun) as (reports & Hr & Hlen).
    destruct ev as [path| |i]; simpl in Hstep.
    + injection Hstep as <-. rewrite computeOutlet_console in Hr. by exists reports.
    + injection Hstep as <-. by exists reports.
    + destruct (pending st !! i) as [c|]; [|done].
      destruct (c_promise c) as [at_ o|]; [|done].
      destruct (at_ <=? now st)%nat; [|done].
      injection Hstep as <-.
      destruct (react_console c o (set_pending (delete i (pending st)) st))
        as [Hsame|[stack Hone]].
      * rewrite Hsame in Hr. simpl in Hr. exists reports. split; [done|lia].
      * rewrite Hone in Hr. simpl in Hr. exists (stack :: reports).
        split; [by rewrite Hr, <- app_assoc|simpl; lia].
Qed.

(** X21. As long as the counter is below [2^53], the reactions of any
    pending closure but the one attached last leave the outlet mapping,
    the counter and the clock alone, however its promise settled: only
    the latest request that is still pending can change what is
    shown. *)
Theorem only_latest_closure_publishes (t : Instant) (evs : list Event)
    (st st' : RouteOutlet Component) (i : nat) :
  run evs (initial t) = Some st ->
  currentZoneID st < MAX_EXACT ->
  (S i < length (pending st))%nat ->
  step (Settle i) st = Some st' ->
  outlets st' = outlets st /\
  currentZoneID st' = currentZoneID st /\
  now st' = now st /\
  pending st' = delete i (pending st).
Proof.
  intros Hrun Hlt Hi.
  assert (ids_ok (initial t)) as Hinit.
  { intros _. simpl. split; constructor. }
  destruct (run_ids_ok _ _ _ Hinit Hrun Hlt) as [Hsorted Hle].
  destruct (lookup_lt_is_Some_2 (pending st) i) as [c Hc]; [lia|].
  destruct (lookup_lt_is_Some_2 (pending st) (S i)) as [c' Hc']; [lia|].
  assert (c_zoneID c < c_zoneID c') as Hcc.
  { apply (StronglySorted_lookup_lt Z.lt (c_zoneID <$> pending st) i (S i)); auto.
    - by rewrite list_lookup_fmap, Hc.
    - by rewrite list_lookup_fmap, Hc'. }
  assert (c_zoneID c' <= currentZoneID st) as Hc'le.
  { rewrite Forall_forall in Hle. apply Hle. apply list_elem_of_fmap.
    exists c'. split; [done|]. by apply list_elem_of_lookup_2 in Hc'. }
  simpl. rewrite Hc. destruct (c_promise c) as [at_ o|]; [|done].
  destruct (at_ <=? now st)%nat; [|done]. intros [= <-].
  destruct (react_stale c o (set_pending (delete i (pending st)) st)) as (Ho & Hz & Hp & Hn).
  - simpl. lia.
  - by rewrite Ho, Hz, Hp, Hn.
Qed.

(** ** A call and what follows *)

Lemma computeOutlet_matched (path : string) (this : RouteOutlet Component)
    (h : RouteHandler Component) (p : Promise.t (gmap string Component)) :
  find (fun h => test (pathRegExp h) path) routeHandlers = Some h ->
  getComponents h (now this) = Returns p ->
  computeOutlet path this =
    (set_pending
       (pending this ++
          [{| c_zoneID := number_succ (currentZoneID this); c_path := path;
              c_routeHandler := h; c_promise := p |}])
       (set_currentZoneID (number_succ (currentZoneID this)) this),
     Normal).
Proof. intros Hfind Hget. unfold computeOutlet. rewrite Hfind. simpl. by rewrite Hget. Qed.

Lemma run_cons (ev : Event) (evs : list Event) (st : RouteOutlet Component) :
  run (ev :: evs) st =
  match step ev st with
  | Some mid => run evs mid
  | None => None
  end.
Proof. reflexivity. Qed.

Lemma step_call (path : string) (st : RouteOutlet Component) :
  step (Call path) st = Some (fst (computeOutlet path st)).
Proof. reflexivity. Qed.

Lemma run_app (evs1 evs2 : list Event) (st : RouteOutlet Component) :
  run (evs1 ++ evs2) st =
  match run evs1 st with
  | Some mid => run evs2 mid
  | None => None
  end.
Proof.
  revert st. induction evs1 as [|ev evs1 IH]; intros st; simpl; [done|].
  by destruct (step ev st).
Qed.

Lemma run_ticks (n : nat) (st : RouteOutlet Component) :
  run (repeat Tick n) st = Some (set_now (n + now st) st).
Proof.
  revert st. induction n as [|n IH]; intros st; simpl.
  - by destruct st.
  - rewrite IH. simpl. unfold set_now. simpl. do 2 f_equal. lia.
Qed.

Lemma step_settle (st : RouteOutlet Component) (i : nat) (c : Closure Component)
    (t : Instant) (o : Promise.Settled (gmap string Component)) :
  pending st !! i = Some c ->
  c_promise c = Settles t o ->
  (t <= now st)%nat ->
  step (Settle i) st = Some (fst (react c o (set_pending (delete i (pending st)) st))).
Proof.
  intros Hi Hp Ht. simpl. rewrite Hi, Hp. apply Nat.leb_le in Ht. by rewrite Ht.
Qed.

Lemma delete_last {A} (l : list A) (x : A) : delete (length l) (l ++ [x]) = l.
Proof. induction l as [|y l IH]; simpl; [done|]. by rewrite IH. Qed.

(** X13. When the loader of the matched route throws instead of
    returning, the call ends with that exception after the counter was
    advanced: no closure is attached and the outlet mapping and the
    console are untouched.  As every closure that was pending is
    superseded by the advance, no reaction of theirs can change the
    mapping any more: the instance shows what it showed until the next
    call. *)
Theorem throwing_loader_freezes_outlets (path : string)
    (this this' : RouteOutlet Component) (e : Reason) :
  computeOutlet path this = (this', Abrupt e) ->
  (exists h, find (fun h => test (pathRegExp h) path) routeHandlers = Some h /\
             getComponents h (now this) = Throws e) /\
  currentZoneID this' = number_succ (currentZoneID this) /\
  pending this' = pending this /\
  outlets this' = outlets this /\
  console this' = console this /\
  (currentZoneID this < MAX_EXACT ->
   (forall c, c ∈ pending this -> c_zoneID c <= currentZoneID this) ->
   forall c o, c ∈ pending this' ->
               outlets (fst (react c o this')) = outlets this').
Proof.
  unfold computeOutlet. destruct (find _ _) as [h|] eqn:Hfind; simpl; [|done].
  destruct (getComponents h (now this)) as [p|e'] eqn:Hget; simpl; [done|].
  intros [= <- <-]. simpl. split; [by exists h|]. repeat split.
  intros Hlt Hle c o Hin.
  destruct (react_stale c o (set_currentZoneID (number_succ (currentZoneID this)) this))
    as [Ho _]; [|exact Ho].
  simpl. rewrite number_succ_exact by done. specialize (Hle c Hin). lia.
Qed.

(** X14. A call whose route matches leaves the outlet mapping as it is;
    once the promise of the route is fulfilled and its reactions run,
    with no other call in between, the mapping is the one built from the
    loaded components, the captures and the remainder of the path,
    whatever the counter was.  The earlier pending closures are still
    pending and the console is unchanged. *)
Theorem resolve_then_publish (path : string) (this : RouteOutlet Component)
    (h : RouteHandler Component) (t : Instant) (components : gmap string Component)
    (matched : string) (matches : list (option string)) (n : nat) :
  find (fun h => test (pathRegExp h) path) routeHandlers = Some h ->
  getComponents h (now this) = Returns (Settles t (Fulfilled components)) ->
  exec (pathRegExp h) path = Some (matched, matches) ->
  (length matches <= length (keys (pathRegExp h)))%nat ->
  (t <= n + now this)%nat ->
  outlets (fst (computeOutlet path this)) = outlets this /\
  exists final params,
    run (Call path :: repeat Tick n ++ [Settle (length (pending this))]) this = Some final /\
    assign_params (keys (pathRegExp h)) matches ∅ = Returns params /\
    outlets final = make_outlets (slice (String.length matched) path) params components /\
    dom (outlets final) = dom components /\
    pending final = pending this /\
    console final = console this /\
    currentZoneID final = number_succ (currentZoneID this).
Proof.
  intros Hfind Hget Hexec Hlen Ht.
  destruct (assign_params_spec (keys (pathRegExp h)) matches ∅ Hlen) as (params & Hp & _).
  rewrite run_cons, step_call, (computeOutlet_matched _ _ _ _ Hfind Hget).
  split; [done|]. cbn [fst]. rewrite run_app, run_ticks, run_cons.
  erewrite step_settle; [|by apply list_lookup_middle|done|simpl; lia].
  eexists _, params. split; [reflexivity|]. split; [exact Hp|].
  unfold react, onFulfilled. simpl. rewrite Z.eqb_refl. simpl. rewrite Hexec, Hp. simpl.
  split; [done|]. split; [unfold make_outlets; by rewrite dom_fmap_L|].
  split; [apply delete_last|]. by split.
Qed.

Lemma react_fulfilled_current (c : Closure Component) (components : gmap string Component)
    (st : RouteOutlet Component) matched matches params :
  c_zoneID c = currentZoneID st ->
  exec (pathRegExp (c_routeHandler c)) (c_path c) = Some (matched, matches) ->
  assign_params (keys (pathRegExp (c_routeHandler c))) matches ∅ = Returns params ->
  react c (Fulfilled components) st =
    (setState (make_outlets (slice (String.length matched) (c_path c)) params components) st,
     Normal).
Proof.
  intros Hcur Hexec Hp. unfold react, onFulfilled.
  rewrite Hcur, Z.eqb_refl. simpl. by rewrite Hexec, Hp.
Qed.

Lemma lookup_two_last {A} (l : list A) (x y : A) :
  ((l ++ [x]) ++ [y]) !! length l = Some x /\
  ((l ++ [x]) ++ [y]) !! S (length l) = Some y /\
  delete (length l) ((l ++ [x]) ++ [y]) = l ++ [y] /\
  delete (S (length l)) ((l ++ [x]) ++ [y]) = l ++ [x].
Proof.
  induction l as [|z l (IH1 & IH2 & IH3 & IH4)]; simpl; [done|].
  repeat split; [done|done| |]; by f_equal.
Qed.

(** X15. Two calls in a row, the first for a route whose promise
    settles in any way, the second for a route whose promise is
    fulfilled: once both reactions have run the outlet mapping is the
    one of the second call, whichever of the two reactions ran first,
    and both closures are gone.  (The counter must not have reached
    [2^53] with the first call.) *)
Theorem latest_request_wins (p1 p2 : string) (this : RouteOutlet Component)
    (h1 h2 : RouteHandler Component) (t1 t2 : Instant)
    (o1 : Promise.Settled (gmap string Component))
    (components : gmap string Component)
    (matched : string) (matches : list (option string)) (n : nat) :
  number_succ (currentZoneID this) < MAX_EXACT ->
  find (fun h => test (pathRegExp h) p1) routeHandlers = Some h1 ->
  getComponents h1 (now this) = Returns (Settles t1 o1) ->
  find (fun h => test (pathRegExp h) p2) routeHandlers = Some h2 ->
  getComponents h2 (now this) = Returns (Settles t2 (Fulfilled components)) ->
  exec (pathRegExp h2) p2 = Some (matched, matches) ->
  (length matches <= length (keys (pathRegExp h2)))%nat ->
  (t1 <= n + now this)%nat ->
  (t2 <= n + now this)%nat ->
  exists params first_then_second second_then_first,
    assign_params (keys (pathRegExp h2)) matches ∅ = Returns params /\
    run (Call p1 :: Call p2 :: repeat Tick n ++
           [Settle (length (pending this)); Settle (length (pending this))]) this
      = Some first_then_second /\
    run (Call p1 :: Call p2 :: repeat Tick n ++
           [Settle (S (length (pending this))); Settle (length (pending this))]) this
      = Some second_then_first /\
    outlets first_then_second
      = make_outlets (slice (String.length matched) p2) params components /\
    outlets second_then_first
      = make_outlets (slice (String.length matched) p2) params components /\
    pending first_then_second = pending this /\
    pending second_then_first = pending this.
Proof.
  intros Hlt Hf1 Hg1 Hf2 Hg2 Hexec Hlen Ht1 Ht2.
  destruct (assign_params_spec (keys (pathRegExp h2)) matches ∅ Hlen) as (params & Hp & _).
  set (z1 := number_succ (currentZoneID this)) in *.
  set (c1 := {| c_zoneID := z1; c_path := p1; c_routeHandler := h1;
                c_promise := Settles t1 o1 |}).
  set (c2 := {| c_zoneID := number_succ z1; c_path := p2; c_routeHandler := h2;
                c_promise := Settles t2 (Fulfilled components) |}).
  destruct (lookup_two_last (pending this) c1 c2) as (L1 & L2 & D1 & D2).
  assert (number_succ z1 = z1 + 1) as Hz2 by by apply number_succ_exact.
  exists params.
  assert (forall evs,
             run (Call p1 :: Call p2 :: repeat Tick n ++ evs) this =
             run evs (set_now (n + now this)
                        (set_pending ((pending this ++ [c1]) ++ [c2])
                           (set_currentZoneID (number_succ z1) this)))) as Hprefix.
  { intros evs. rewrite run_cons, step_call, (computeOutlet_matched _ _ _ _ Hf1 Hg1).
    cbn [fst]. rewrite run_cons, step_call.
    erewrite computeOutlet_matched; [|exact Hf2|exact Hg2].
    cbn [fst]. by rewrite run_app, run_ticks. }
  set (s0 := set_now (n + now this)
               (set_pending ((pending this ++ [c1]) ++ [c2])
                  (set_currentZoneID (number_succ z1) this))) in *.
  set (a1 := fst (react c1 o1 (set_pending (delete (length (pending this)) (pending s0)) s0))).
  set (a2 := fst (react c2 (Fulfilled components)
                    (set_pending (delete (length (pending this)) (pending a1)) a1))).
  set (b1 := fst (react c2 (Fulfilled components)
                    (set_pending (delete (S (length (pending this))) (pending s0)) s0))).
  set (b2 := fst (react c1 o1
                    (set_pending (delete (length (pending this)) (pending b1)) b1))).
  assert (pending a1 = pending this ++ [c2]) as Pa1.
  { unfold a1. rewrite react_pending. simpl. exact D1. }
  assert (pending b1 = pending this ++ [c1]) as Pb1.
  { unfold b1. rewrite react_pending. simpl. exact D2. }
  assert (currentZoneID a1 = number_succ z1) as Za1.
  { unfold a1. by rewrite react_currentZoneID. }
  assert (currentZoneID b1 = number_succ z1) as Zb1.
  { unfold b1. by rewrite react_currentZoneID. }
  exists a2, b2. split; [exact Hp|]. split; [|split].
  - rewrite Hprefix, run_cons.
    rewrite (step_settle s0 _ c1 t1 o1 L1 eq_refl) by (simpl; lia).
    fold a1. rewrite run_cons.
    rewrite (step_settle a1 _ c2 t2 (Fulfilled components)); [done| |done|].
    + rewrite Pa1. by apply list_lookup_middle.
    + unfold a1. rewrite react_now. simpl. lia.
  - rewrite Hprefix, run_cons.
    rewrite (step_settle s0 _ c2 t2 (Fulfilled components) L2 eq_refl) by (simpl; lia).
    fold b1. rewrite run_cons.
    rewrite (step_settle b1 _ c1 t1 o1); [done| |done|].
    + rewrite Pb1. by apply list_lookup_middle.
    + unfold b1. rewrite react_now. simpl. lia.
  - assert (outlets b1 = make_outlets (slice (String.length matched) p2) params components)
      as Ob1.
    { unfold b1. by erewrite react_fulfilled_current; [|done|exact Hexec|exact Hp]. }
    split; [|split; [|split]].
    + unfold a2. by erewrite react_fulfilled_current; [|simpl; by rewrite Za1|exact Hexec|exact Hp].
    + unfold b2.
      destruct (react_stale c1 o1 (set_pending (delete (length (pending this)) (pending b1)) b1))
        as [-> _]; [simpl; lia|exact Ob1].
    + unfold a2. rewrite react_pending. simpl. rewrite Pa1. apply delete_last.
    + unfold b2. rewrite react_pending. simpl. rewrite Pb1. apply delete_last.
Qed.

(** X16. When the promise of the matched route is rejected with an
    error value and its reactions run, with no other call in between,
    the stack is on the console and the outlet mapping is empty,
    whatever it held before; the earlier pending closures are still
    pending. *)
Theorem resolve_then_fail (path : string) (this : RouteOutlet Component)
    (h : RouteHandler Component) (t : Instant) (stack : option string) (n : nat) :
  find (fun h => test (pathRegExp h) path) routeHandlers = Some h ->
  getComponents h (now this) = Returns (Settles t (Rejected (ErrorValue stack))) ->
  (t <= n + now this)%nat ->
  exists final,
    run (Call path :: repeat Tick n ++ [Settle (length (pending this))]) this = Some final /\
    outlets final = ∅ /\
    console final = console this ++ [stack] /\
    pending final = pending this /\
    currentZoneID final = number_succ (currentZoneID this).
Proof.
  intros Hfind Hget Ht.
  rewrite run_cons, step_call, (computeOutlet_matched _ _ _ _ Hfind Hget).
  cbn [fst]. rewrite run_app, run_ticks, run_cons.
  erewrite step_settle; [|by apply list_lookup_middle|done|simpl; lia].
  eexists. split; [reflexivity|].
  unfold react, onRejected. simpl. rewrite Z.eqb_refl. simpl.
  split; [done|]. split; [done|]. split; [apply delete_last|done].
Qed.

(** ** The table *)

Lemma map_lookup {A B} (f : A -> B) (l : list A) (i : nat) :
  map f l !! i = f <$> l !! i.
Proof.
  revert i. induction l as [|x l IH]; intros [|i]; simpl; auto.
Qed.

(** X17. The table of an instance has one route per user route, in the
    order the user gave them, so the route [find] selects for a path is
    the compiled form of the first user route whose pattern, compiled
    with its [end] option, matches the path. *)
Theorem routes_selected_in_input_order (p : string) (h : RouteHandler Component) :
  length routeHandlers = length userRouteHandlers /\
  (find (fun h => test (pathRegExp h) p) routeHandlers = Some h <->
   exists i u,
     userRouteHandlers !! i = Some u /\
     h = toRouteHandler u /\
     test (pathToRegexp (path u) (end_option (path u) (end_ u))) p = true /\
     forall j u', (j < i)%nat -> userRouteHandlers !! j = Some u' ->
                  test (pathToRegexp (path u') (end_option (path u') (end_ u'))) p = false).
Proof.
  split; [apply length_map|].
  rewrite (find_lowest_index p routeHandlers h). unfold routeHandlers. split.
  - intros (i & Hi & Hm & Hlow). rewrite map_lookup in Hi.
    destruct (userRouteHandlers !! i) as [u|] eqn:Hu; [|done]. injection Hi as <-.
    exists i, u. split; [done|]. split; [done|]. split; [exact Hm|].
    intros j u' Hj Hu'. apply (Hlow j (toRouteHandler u') Hj).
    by rewrite map_lookup, Hu'.
  - intros (i & u & Hu & -> & Hm & Hlow). exists i.
    split; [by rewrite map_lookup, Hu|]. split; [exact Hm|].
    intros j h' Hj Hh'. rewrite map_lookup in Hh'.
    destruct (userRouteHandlers !! j) as [u'|] eqn:Hu'; [|done]. injection Hh' as <-.
    by apply (Hlow j u').
Qed.

(** ** From a route to what is rendered *)

(** X19. When the single thunk of a route has resolved and the
    reaction of the still-current closure has run, the composed
    component is rendered with the resolved view as its children,
    wrapped in the provider of the remainder, and [outlets] offers that
    one element under ["default"] and nothing else. *)
Theorem single_route_becomes_children {P : Type} (this_props : P)
    (u : UserRouteHandler Component) (thunk : Thunk Component) (t0 t : Instant)
    (m : gmap string Component) (c : Closure Component) (this : RouteOutlet Component)
    (matched : string) (matches : list (option string)) :
  component u = Single thunk ->
  getComponents (toRouteHandler u) t0 = Returns (Settles t (Fulfilled m)) ->
  c_routeHandler c = toRouteHandler u ->
  c_zoneID c = currentZoneID this ->
  exec (pathRegExp (toRouteHandler u)) (c_path c) = Some (matched, matches) ->
  (length matches <= length (keys (pathRegExp (toRouteHandler u))))%nat ->
  exists view params this',
    react c (Fulfilled m) this = (this', Normal) /\
    m = {[ "default" := view ]} /\
    children (render this_props this') =
      Some (providePath (slice (String.length matched) (c_path c))
              (ComponentElement view params)) /\
    outlets_prop (props (render this_props this')) =
      {[ "default" := providePath (slice (String.length matched) (c_path c))
                        (ComponentElement view params) ]}.
Proof.
  intros Hc Hget Hh Hcur Hexec Hlen. simpl in Hget. rewrite Hc in Hget. simpl in Hget.
  destruct (thunk t0) as [x|]; [|done]. injection Hget as Hget.
  destruct (Promise.resolve t0 x) as [t' [view|]|]; simpl in Hget; try done.
  injection Hget as -> <-.
  destruct (assign_params_spec _ matches ∅ Hlen) as (params & Hp & _).
  exists view, params. eexists. rewrite <- Hh in Hexec, Hp.
  split; [by apply (react_fulfilled_current _ _ _ matched matches params)|].
  split; [done|]. unfold render, make_outlets. simpl. rewrite map_fmap_singleton.
  split; [by rewrite lookup_singleton_eq|done].
Qed.

(** X20. When the thunks of a multi-outlet route have all resolved and
    the reaction of the still-current closure has run, [outlets] offers
    exactly the keys of the route other than [__proto__] (a key of that
    name is lost when the loaded components are collected), and the
    composed component gets children exactly when the route has a key
    named ["default"]. *)
Theorem named_route_children_iff_default {P : Type} (this_props : P)
    (u : UserRouteHandler Component) (thunks : gmap string (Thunk Component))
    (t0 t : Instant) (m : gmap string Component) (c : Closure Component)
    (this : RouteOutlet Component) (matched : string) (matches : list (option string)) :
  component u = Named thunks ->
  getComponents (toRouteHandler u) t0 = Returns (Settles t (Fulfilled m)) ->
  c_routeHandler c = toRouteHandler u ->
  c_zoneID c = currentZoneID this ->
  exec (pathRegExp (toRouteHandler u)) (c_path c) = Some (matched, matches) ->
  (length matches <= length (keys (pathRegExp (toRouteHandler u))))%nat ->
  exists this',
    react c (Fulfilled m) this = (this', Normal) /\
    dom (outlets_prop (props (render this_props this'))) = dom thunks ∖ {[ "__proto__" ]} /\
    (is_Some (children (render this_props this')) <-> is_Some (thunks !! "default")).
Proof.
  intros Hc Hget Hh Hcur Hexec Hlen. simpl in Hget. rewrite Hc in Hget.
  apply named_fulfilled in Hget as (_ & Hdom & _).
  destruct (assign_params_spec _ matches ∅ Hlen) as (params & Hp & _).
  eexists. rewrite <- Hh in Hexec, Hp.
  split; [by apply (react_fulfilled_current _ _ _ matched matches params)|].
  unfold render, make_outlets. simpl. split.
  - by rewrite dom_fmap_L.
  - rewrite lookup_fmap, fmap_is_Some. rewrite <- !elem_of_dom, Hdom.
    rewrite elem_of_difference, not_elem_of_singleton. split; [by intros [? _]|done].
Qed.

End Further.

(** ** Below an outlet *)

Section Nesting.

Context {Component : Type} {callable : Callable Component}.
Variable pathToRegexp : string -> bool -> PathRegExp.

(** X18. Every element of a published outlet mapping is a
    [PathProvider] with exactly one child, the element of the loaded
    component with [params] as props: its [render] returns that child
    and never throws, and its child context carries the remainder.  A
    nested [RouteOutlet] below it, whatever its table, therefore
    resolves the remainder, on mount and on every later update. *)
Theorem nested_resolver_gets_remainder (pathRest : string)
    (params : gmap string (option string)) (components : gmap string Component)
    (key : string) (element : ReactElement Component) :
  make_outlets pathRest params components !! key = Some element ->
  exists type props,
    components !! key = Some type /\
    provider_props element = Some props /\
    PathProvider_render props = Returns (ComponentElement type params) /\
    PathProvider.getChildContext {| PathProvider.path := provider_path props |}
      = {| PathProvider.path := pathRest |} /\
    forall (nestedRoutes : list (UserRouteHandler Component))
           (nested : RouteOutlet Component),
      componentDidMount pathToRegexp nestedRoutes
        (PathProvider.getChildContext {| PathProvider.path := provider_path props |}) nested
      = computeOutlet pathToRegexp nestedRoutes pathRest nested /\
      componentWillReceiveProps pathToRegexp nestedRoutes
        (PathProvider.getChildContext {| PathProvider.path := provider_path props |}) nested
      = computeOutlet pathToRegexp nestedRoutes pathRest nested.
Proof.
  unfold make_outlets. rewrite lookup_fmap.
  destruct (components !! key) as [type|]; [|done].
  intros [= <-]. exists type. eexists. split; [done|]. split; [reflexivity|].
  split; [done|]. split; [done|]. by intros nestedRoutes nested.
Qed.

End Nesting.

(** * The further properties on the tables of the test suite *)

Module MoreChecks.

Import Examples MoreExamples.

Abbreviation P := Segments.pathToRegexp.

Lemma surplus_captures_reported_witness :
  exists this',
    react keyless_closure (Fulfilled {[ "default" := "K" ]}) (initial 0) = (this', Normal) /\
    console this' = [Some "TypeError"] /\
    outlets this' = ∅.
Proof.
  destruct (surplus_captures_reported keyless_closure {[ "default" := "K" ]} (initial 0)
              "/k" [Some "x"] eq_refl eq_refl)
    as (this' & stack & Hr & Hstack & Hconsole & Houtlets & _).
  - simpl. lia.
  - injection Hstack as <-. by exists this'.
Defined.

(** ["/:a/:a"] on ["/1/2"]: [a] is the second capture. *)
Lemma last_capture_wins_witness :
  exists params,
    assign_params (keys (P "/:a/:a" false)) [Some "1"; Some "2"] ∅ = Returns params /\
    params !! "a" = Some (Some "2").
Proof.
  eexists. split; [reflexivity|].
  refine (proj1 (last_capture_wins (keys (P "/:a/:a" false)) [Some "1"; Some "2"] _ eq_refl)
            1%nat {| name := "a" |} (Some "2") eq_refl eq_refl _ _).
  - discriminate.
  - intros j key' Hj Hlen. simpl in Hlen. lia.
Defined.


(** A loader that hangs next to one that is ready. *)
Lemma named_pending_forever_witness :
  getComponents_of (Named hanging_thunks) 0 = Returns Forever /\
  exists key thunk x,
    hanging_thunks !! key = Some thunk /\ thunk 0%nat = Returns x /\
    Promise.resolve 0 x = Forever.
Proof.
  assert (getComponents_of (Named hanging_thunks) 0 = Returns Forever) as Hg
    by (vm_compute; reflexivity).
  split; [exact Hg|].
  exact (proj2 (proj2 (proj1 (named_pending_forever hanging_thunks 0%nat eq_refl) Hg))).
Defined.

Lemma pending_closures_wellformed_witness :
  1 <= c_zoneID ab_closure <= currentZoneID cd_published /\
  exists matched matches,
    exec (pathRegExp (c_routeHandler ab_closure)) "/ab" = Some (matched, matches).
Proof.
  destruct (pending_closures_wellformed P named_failing 0%nat ab_then_cd cd_published
              0%nat ab_closure)
    as (Hid & _ & _ & Hexec & _); [vm_compute; reflexivity|vm_compute; reflexivity|].
  split; [exact Hid|exact Hexec].
Defined.

Lemma pending_sessions_increase_witness :
  c_zoneID x_closure < c_zoneID y_closure /\
  (forall i c, pending after_y !! i = Some c -> c_zoneID c = currentZoneID after_y ->
               S i = length (pending after_y)).
Proof.
  destruct (pending_sessions_increase P slow_fast 0%nat [Call "/x"; Call "/y"] after_y)
    as [Hincr Hlast]; [vm_compute; reflexivity|vm_compute; reflexivity|].
  split; [|exact Hlast].
  apply (Hincr 0%nat 1%nat); [lia|vm_compute; reflexivity|vm_compute; reflexivity].
Defined.

Lemma counter_counts_calls_witness :
  currentZoneID after_y = 2.
Proof.
  rewrite (counter_counts_calls P slow_fast [Call "/x"; Call "/y"] (initial 0) after_y);
    [reflexivity|vm_compute; reflexivity|vm_compute; discriminate].
Defined.

Lemma console_append_only_witness :
  exists reports,
    console cd_published = console (initial (Component := string) 0) ++ reports /\
    (length reports <= 1)%nat.
Proof.
  exact (console_append_only P named_failing ab_then_cd (initial 0) cd_published
           ltac:(vm_compute; reflexivity)).
Defined.

Lemma throwing_loader_freezes_outlets_witness :
  outlets (fst (computeOutlet P throwing "/t" (initial 0))) = ∅ /\
  currentZoneID (fst (computeOutlet P throwing "/t" (initial 0))) = 1 /\
  pending (fst (computeOutlet P throwing "/t" (initial 0))) = [].
Proof.
  destruct (throwing_loader_freezes_outlets P throwing "/t" (initial 0)
              (fst (computeOutlet P throwing "/t" (initial 0))) boom eq_refl)
    as (_ & Hz & Hp & Ho & _).
  split; [exact Ho|]. split; [exact Hz|exact Hp].
Defined.

Lemma resolve_then_publish_witness :
  exists final,
    run P basic (Call "/a/b/c" :: repeat Tick 0 ++ [Settle 0]) (initial 0) = Some final /\
    outlets final !! "default" = Some (providePath "/b/c" (ComponentElement "A" ∅)) /\
    dom (outlets final) = {[ "default" ]}.
Proof.
  destruct (resolve_then_publish P basic "/a/b/c" (initial 0)
              (toRouteHandler P (route "/a" (Single (sync "A")))) 0%nat
              {[ "default" := "A" ]} "/a" [] 0%nat)
    as (_ & final & params & Hrun & Hp & Ho & Hdom & _);
    [reflexivity|reflexivity|reflexivity|simpl; lia|simpl; lia|].
  injection Hp as <-. exists final. split; [exact Hrun|]. split.
  - rewrite Ho. reflexivity.
  - rewrite Hdom. by rewrite dom_singleton_L.
Defined.

Lemma latest_request_wins_witness :
  exists first_then_second second_then_first,
    run P slow_fast ([Call "/x"; Call "/y"] ++ repeat Tick 5 ++ [Settle 0; Settle 0])
      (initial 0) = Some first_then_second /\
    run P slow_fast ([Call "/x"; Call "/y"] ++ repeat Tick 5 ++ [Settle 1; Settle 0])
      (initial 0) = Some second_then_first /\
    outlets first_then_second !! "default" = Some (providePath "" (ComponentElement "Y" ∅)) /\
    outlets second_then_first !! "default" = Some (providePath "" (ComponentElement "Y" ∅)).
Proof.
  destruct (latest_request_wins P slow_fast "/x" "/y" (initial 0)
              (c_routeHandler x_closure) (c_routeHandler y_closure) 5%nat 1%nat
              (Fulfilled {[ "default" := "X" ]}) {[ "default" := "Y" ]} "/y" [] 5%nat)
    as (params & a & b & Hp & Ha & Hb & Hoa & Hob & _);
    [vm_compute; reflexivity|reflexivity|reflexivity|reflexivity|reflexivity
    |reflexivity|simpl; lia|simpl; lia|simpl; lia|].
  injection Hp as <-. exists a, b. split; [exact Ha|]. split; [exact Hb|].
  rewrite Hoa, Hob. split; reflexivity.
Defined.

Lemma resolve_then_fail_witness :
  exists final,
    run P named_failing (Call "/ab" :: repeat Tick 3 ++ [Settle 0]) (initial 0) = Some final /\
    outlets final = ∅ /\
    console final = [Some "Error: boom"].
Proof.
  destruct (resolve_then_fail P named_failing "/ab" (initial 0)
              (c_routeHandler ab_closure) 3%nat (Some "Error: boom") 3%nat)
    as (final & Hrun & Ho & Hc & _); [reflexivity|reflexivity|simpl; lia|].
  exists final. split; [exact Hrun|]. split; [exact Ho|exact Hc].
Defined.

Lemma nested_resolver_gets_remainder_witness :
  exists props,
    provider_props (providePath "/b/c" (ComponentElement "A" ∅)) = Some props /\
    PathProvider_render props = Returns (ComponentElement "A" ∅) /\
    componentDidMount P basic
      (PathProvider.getChildContext {| PathProvider.path := provider_path props |}) (initial 0)
    = computeOutlet P basic "/b/c" (initial 0).
Proof.
  destruct (nested_resolver_gets_remainder P "/b/c" ∅ {[ "default" := "A" ]} "default"
              (providePath "/b/c" (ComponentElement "A" ∅)))
    as (type & props & Htype & Hprops & Hrender & _ & Hnested); [vm_compute; reflexivity|].
  vm_compute in Htype. injection Htype as <-.
  exists props. split; [exact Hprops|]. split; [exact Hrender|].
  exact (proj1 (Hnested basic (initial 0))).
Defined.

Lemma single_route_becomes_children_witness :
  exists view params this',
    react a_closure (Fulfilled {[ "default" := "A" ]}) (initial 0) = (this', Normal) /\
    {[ "default" := "A" ]} = ({[ "default" := view ]} : gmap string string) /\
    children (render tt this') =
      Some (providePath (slice (String.length "/a") "/a/b/c") (ComponentElement view params)) /\
    outlets_prop (props (render tt this')) =
      {[ "default" := providePath (slice (String.length "/a") "/a/b/c")
                        (ComponentElement view params) ]}.
Proof.
  apply (single_route_becomes_children P tt (route "/a" (Single (sync "A"))) (sync "A")
           0%nat 0%nat {[ "default" := "A" ]} a_closure (initial 0) "/a" []);
    [reflexivity|reflexivity|reflexivity|reflexivity|reflexivity|simpl; lia].
Defined.

Lemma named_route_children_iff_default_witness :
  exists this',
    react ab_named_closure (Fulfilled (<["one" := "A"]> {[ "two" := "B" ]})) (initial 0)
      = (this', Normal) /\
    children (render tt this') = None.
Proof.
  destruct (named_route_children_iff_default P tt ab_named
              (<["one" := sync "A"]> (<["two" := sync "B"]> ∅)) 0%nat 0%nat
              (<["one" := "A"]> {[ "two" := "B" ]}) ab_named_closure (initial 0) "/ab" [])
    as (this' & Hr & _ & Hiff);
    [reflexivity|vm_compute; reflexivity|reflexivity|reflexivity|reflexivity|simpl; lia|].
  exists this'. split; [exact Hr|].
  destruct (children (render tt this')) as [el|] eqn:Hch; [|done].
  destruct (proj1 Hiff) as [thunk Hthunk]; [by eexists|].
  vm_compute in Hthunk. discriminate Hthunk.
Defined.

Lemma only_latest_closure_publishes_witness :
  exists st',
    step P slow_fast (Settle 0) both_ready = Some st' /\
    outlets st' = outlets both_ready.
Proof.
  eexists. split; [vm_compute; reflexivity|].
  apply (only_latest_closure_publishes P slow_fast 0%nat
           ([Call "/x"; Call "/y"] ++ repeat Tick 5) both_ready _ 0%nat);
    [vm_compute; reflexivity|vm_compute; reflexivity|vm_compute; lia|vm_compute; reflexivity].
Defined.

(** The loader of [two] is rejected while ["/ab"] is still current: the
    stack is reported and the mapping is empty. *)
Lemma error_rejection_reported_then_guarded_witness :
  exists this',
    step P named_failing (Settle 0) ab_rejected = Some this' /\
    console this' = [Some "Error: boom"] /\
    outlets this' = ∅ /\
    pending this' = [].
Proof.
  destruct (error_rejection_reported_then_guarded P named_failing ab_rejected 0%nat
              ab_closure 3%nat (Some "Error: boom"))
    as (this' & Hstep & _ & Hconsole & Hclear & _ & _ & Hpending);
    [reflexivity | reflexivity | vm_compute; lia |].
  exists this'. split; [exact Hstep|]. split; [exact Hconsole|].
  split; [by apply Hclear|exact Hpending].
Defined.


(** The route with the keys [one] and [__proto__] loads the component of
    [one] only. *)
Lemma named_proto_key_dropped_witness :
  getComponents_of (Named proto_thunks) 0 = Returns (Settles 0 (Fulfilled {[ "one" := "A" ]})) /\
  ({[ "one" := "A" ]} : gmap string string) !! "__proto__" = None /\
  exists x tk view,
    sync "B" 0%nat = Returns x /\
    Promise.resolve 0 x = Settles tk (Fulfilled view) /\
    (tk <= 0)%nat.
Proof.
  assert (getComponents_of (Named proto_thunks) 0
          = Returns (Settles 0 (Fulfilled {[ "one" := "A" ]}))) as Hg
    by (vm_compute; reflexivity).
  split; [exact Hg|].
  destruct (named_proto_key_dropped proto_thunks 0%nat 0%nat {[ "one" := "A" ]} Hg)
    as (Hnone & _ & Hcalled).
  split; [exact Hnone|]. exact (Hcalled (sync "B") eq_refl).
Defined.

End MoreChecks.
